(** * spellingfixer: a character-level HMM spelling corrector

    Shallow embedding of [src/spellingfixer.py]: the trainer
    ([compute_emissions], [compute_transitions]), the decoder ([viterbi])
    and the vocabulary snapper ([closest_known_word]), followed by the
    properties the specification states about them.

    Conventions.
    - A Python [str] is a [list ascii]; [len] is [length]; [s[i]] is
      [py_index], which raises [IndexError] out of range.
    - A Python [dict] read through [in], [.get] and [d[k]] is a [gmap].
    - Python exceptions are the [Raise] branch of [result].
    - Python [int] is [Z]; the quotient [n / total] of two ints is the exact
      rational [Q]; log-probabilities live in an abstract carrier
      ([LogArith]) with the operations the decoder applies to them. *)

From Stdlib Require Import ZArith QArith Qfield Lia.
From Stdlib Require Import Ascii String.
From stdpp Require Import base decidable option list gmap fin_maps strings.

Local Open Scope Z_scope.

(** ** Strings and exceptions *)

Abbreviation str := (list ascii).

Definition lit (s : string) : str := list_ascii_of_string s.

Inductive exn : Set :=
  | IndexError
  | KeyError
  | ValueError
  | ZeroDivisionError.

Inductive result (A : Type) : Type :=
  | Ok (a : A)
  | Raise (e : exn).
Arguments Ok {A} a.
Arguments Raise {A} e.

#[export] Instance result_ret : MRet result := λ A a, Ok a.
#[export] Instance result_bind : MBind result :=
  λ A B f m, match m with Ok a => f a | Raise e => Raise e end.

Definition is_Ok {A} (r : result A) : Prop := ∃ a, r = Ok a.

(** [for x in xs: body] with the loop-carried variables in [s]. *)
Fixpoint for_each {S A : Type} (xs : list A) (s : S)
    (body : S → A → result S) : result S :=
  match xs with
  | [] => Ok s
  | x :: xs' => s' ← body s x; for_each xs' s' body
  end.

(** [range(n)] and [range(a, b)]. *)
Definition range (n : nat) : list nat := seq 0 n.
Definition range_from (a b : nat) : list nat := seq a (b - a).

(** [s[i]] for a non-negative index. *)
Definition py_index {A} (s : list A) (i : nat) : result A :=
  match s !! i with
  | Some c => Ok c
  | None => Raise IndexError
  end.

(** [d[k]]. *)
Definition py_getitem {K} `{Countable K} {A} (d : gmap K A) (k : K) : result A :=
  match d !! k with
  | Some v => Ok v
  | None => Raise KeyError
  end.

(** [d.get(k, dflt)]. *)
Definition py_get {K} `{Countable K} {A} (d : gmap K A) (k : K) (dflt : A) : A :=
  default dflt (d !! k).

(** ** Vocabulary snapper *)

(** The sentinel [10**9] of [closest_known_word]. *)
Definition BEST_SCORE_INIT : Z := 10 ^ 9.

(** Lines 177-181: the score of one dictionary word. *)
Definition word_dist (word candidate : str) : result Z :=
  let dist := Z.abs (Z.of_nat (length word) - Z.of_nat (length candidate)) in
  let m := Nat.min (length word) (length candidate) in
  for_each (range m) dist (λ dist i,
    wc ← py_index word i;
    cc ← py_index candidate i;
    Ok (if decide (wc ≠ cc) then dist + 1 else dist)).

(** Lines 173-185: the scan, with the loop-carried pair [(best, best_score)]. *)
Definition scan_step (candidate : str) (st : str * Z) (word : str)
    : result (str * Z) :=
  let '(best, best_score) := st in
  dist ← word_dist word candidate;
  Ok (if decide (dist < best_score) then (word, dist) else (best, best_score)).

Definition closest_known_word (candidate : str) (dictionary_words : list str)
    : result str :=
  if decide (candidate ∈ dictionary_words) then Ok candidate
  else
    st ← for_each dictionary_words (candidate, BEST_SCORE_INIT)
           (scan_step candidate);
    Ok (fst st).

(** *** The snapper as the specification words it *)

(** [|len(word) - len(candidate)|] plus the number of indices below the
    shorter length at which the two strings differ. *)
Definition spec_distance (word candidate : str) : Z :=
  Z.abs (Z.of_nat (length word) - Z.of_nat (length candidate))
  + Z.of_nat (length (filter (λ i, word !! i ≠ candidate !! i)
                        (seq 0 (Nat.min (length word) (length candidate))))).

Definition list_min (d : Z) (l : list Z) : Z := foldr Z.min d l.

(** Exact hit, else the first vocabulary word attaining the minimum distance;
    with nothing to compare against, the candidate itself. *)
Definition spec_snap (candidate : str) (vocabulary : list str) : str :=
  if decide (candidate ∈ vocabulary) then candidate
  else
    match vocabulary with
    | [] => candidate
    | w0 :: _ =>
        let best := list_min (spec_distance w0 candidate)
                      ((λ w, spec_distance w candidate) <$> vocabulary) in
        default candidate
          (List.find (λ w, bool_decide (spec_distance w candidate = best))
             vocabulary)
    end.

(** *** The scan, for the proofs *)

(** One iteration of the scan once the distance is known. *)
Definition scan_pure (candidate : str) (st : str * Z) (word : str) : str * Z :=
  if decide (spec_distance word candidate < st.2) then
    (word, spec_distance word candidate)
  else st.

(** Some vocabulary word scores strictly below the sentinel. *)
Definition within_sentinel (candidate : str) (vocabulary : list str) : Prop :=
  ∃ w d, w ∈ vocabulary ∧ word_dist w candidate = Ok d ∧ d < BEST_SCORE_INIT.

(** A word of [10**9] letters. *)
Definition far_word : str := replicate (Z.to_nat (10 ^ 9)) "a"%char.

(** ** Model trainer *)

Abbreviation counts := (gmap ascii (gmap ascii Z)).
Abbreviation table := (gmap ascii (gmap ascii Q)).

(** Lines 46-50 and 81-85: create the row and the cell when absent, then
    increment the cell. *)
Definition bump (d : counts) (a b : ascii) : result counts :=
  let d := match d !! a with None => <[a := ∅]> d | Some _ => d end in
  row ← py_getitem d a;
  let row := match row !! b with None => <[b := 0]> row | Some _ => row end in
  n ← py_getitem row b;
  Ok (<[a := <[b := n + 1]> row]> d).

(** Lines 37-50. *)
Definition count_emissions (pairs : list (str * str)) : result counts :=
  for_each pairs ∅ (λ emissions '(correct, typed),
    let len := length correct in
    let len := if decide (length typed < len)%nat then length typed else len in
    for_each (range len) emissions (λ emissions i,
      c_char ← py_index correct i;
      t_char ← py_index typed i;
      bump emissions c_char t_char)).

(** Lines 75-85. *)
Definition count_transitions (pairs : list (str * str)) : result counts :=
  for_each pairs ∅ (λ transitions '(correct, _),
    let word := lit "^" ++ correct ++ lit "$" in
    for_each (range (length word - 1)) transitions (λ transitions i,
      a ← py_index word i;
      b ← py_index word (i + 1);
      bump transitions a b)).

(** [n / total] on two ints. *)
Definition true_div (n total : Z) : result Q :=
  if decide (total = 0) then Raise ZeroDivisionError
  else Ok (inject_Z n / inject_Z total)%Q.

(** [for k in d: out[k] = f(d[k])], building a fresh dict. *)
Definition dict_map {A B} (f : A → result B) (d : gmap ascii A)
    : result (gmap ascii B) :=
  map_fold (λ k a acc, out ← acc; b ← f a; Ok (<[k := b]> out)) (Ok ∅) d.

(** Lines 54-56 and 89-91. *)
Definition row_total (row : gmap ascii Z) : Z :=
  map_fold (λ _ n total, total + n) 0 row.

(** Lines 52-59 and 87-94. *)
Definition normalize (d : counts) : result table :=
  dict_map (λ row, let total := row_total row in
                   dict_map (λ n, true_div n total) row) d.

Definition compute_emissions (pairs : list (str * str)) : result table :=
  emissions ← count_emissions pairs; normalize emissions.

Definition compute_transitions (pairs : list (str * str)) : result table :=
  transitions ← count_transitions pairs; normalize transitions.

(** [tbl[a][b]] when present. *)
Definition cell {A} (tbl : gmap ascii (gmap ascii A)) (a b : ascii) : option A :=
  row ← tbl !! a; row !! b.

(** *** The trainer as the specification words it *)

Definition all_chars : list ascii := ascii_of_nat <$> seq 0 256.

Definition occurrences (x : ascii * ascii) (l : list (ascii * ascii)) : Z :=
  Z.of_nat (length (filter (λ y, y = x) l)).

(** The aligned positions of one pair: index by index, up to the shorter
    string. *)
Definition aligned (pair : str * str) : list (ascii * ascii) :=
  zip (fst pair) (snd pair).

(** The adjacent character pairs of [sentinel + word + sentinel]. *)
Definition adjacent (pair : str * str) : list (ascii * ascii) :=
  let padded := lit "^" ++ fst pair ++ lit "$" in
  zip padded (tail padded).

Section spec_trainer.
Variable events : str * str → list (ascii * ascii).
Variable pairs : list (str * str).

Definition spec_count (a b : ascii) : Z :=
  foldr Z.add 0 ((λ pair, occurrences (a, b) (events pair)) <$> pairs).

Definition spec_row_total (a : ascii) : Z :=
  foldr Z.add 0 (spec_count a <$> all_chars).

(** A cell exists exactly for a counted pair and holds its count divided by
    the total of its row. *)
Definition spec_prob (a b : ascii) : option Q :=
  if decide (spec_count a b = 0) then None
  else Some (inject_Z (spec_count a b) / inject_Z (spec_row_total a))%Q.
End spec_trainer.

Definition row_sum (row : gmap ascii Q) : Q :=
  foldr Qplus 0%Q (snd <$> map_to_list row).

Definition training_sample : list (str * str) :=
  [(lit "cat", lit "cat"); (lit "cat", lit "kat"); (lit "dog", lit "do")].


(** *** Counting, for the proofs *)

(** The count held for a pair, 0 when the cell is absent. *)
Definition count_of (d : counts) (a b : ascii) : Z := default 0 (cell d a b).

Definition bump_pure (d : counts) (ab : ascii * ascii) : counts :=
  <[ab.1 := <[ab.2 := count_of d ab.1 ab.2 + 1]> (default ∅ (d !! ab.1))]> d.

(** [d] holds exactly the occurrence counts of the events [evs]: a cell per
    pair that occurs, a row per first component that occurs. *)
Definition counted (d : counts) (evs : list (ascii * ascii)) : Prop :=
  (∀ a b, cell d a b
          = if decide (occurrences (a, b) evs = 0) then None
            else Some (occurrences (a, b) evs))
  ∧ (∀ a, is_Some (d !! a) → ∃ b, (a, b) ∈ evs).

(** All events of a training set, pair after pair. *)
Definition all_events (events : str * str → list (ascii * ascii))
    (pairs : list (str * str)) : list (ascii * ascii) :=
  concat (events <$> pairs).

(** The sum of [f] over a list of characters. *)
Definition sum_over (f : ascii → Z) (l : list ascii) : Z :=
  foldr Z.add 0 (f <$> l).

(** Lines 57-59 and 92-94 on one row. *)
Definition normalize_row (row : gmap ascii Z) : gmap ascii Q :=
  (λ n, inject_Z n / inject_Z (row_total row))%Q <$> row.

(** Every row sums to 1 and holds values in (0, 1]. *)
Definition stochastic (tbl : table) : Prop :=
  ∀ a row, tbl !! a = Some row →
    (row_sum row == 1)%Q
    ∧ ∀ b p, row !! b = Some p → (0 < p)%Q ∧ (p <= 1)%Q.

(** Two small tables. *)
Definition sample_transitions : table :=
  {[ "^"%char := {[ "c"%char := (2 # 3)%Q ]};
     "c"%char := {[ "a"%char := (1 # 1)%Q ]} ]}.

Definition sample_emissions : table :=
  {[ "c"%char := {[ "k"%char := (1 # 2)%Q; "c"%char := (1 # 2)%Q ]} ]}.

(** A table that stores a zero. *)
Definition zero_transitions : table :=
  {[ "^"%char := {[ "a"%char := 0%Q ]} ]}.

(** ** Decoder *)

(** The arithmetic the decoder performs on log-probabilities: the carrier of
    Python's [float] scores with [float("-inf")], [+], [>] and the value of
    [math.log] at a positive argument. *)
Class LogArith := {
  score : Type;
  neg_inf : score;
  fadd : score → score → score;
  fgt : score → score → bool;
  flog : Q → score;
}.

#[export] Instance Qlt_decision : RelDecision Qlt :=
  λ x y, Z_lt_dec (Qnum x * QDen y) (Qnum y * QDen x).

(** [math.log(p)]: a [ValueError] unless [p] is positive. *)
Definition math_log {A : LogArith} (p : Q) : result score :=
  if decide (0 < p)%Q then Ok (flog p) else Raise ValueError.

(** The test of [math.log] on its argument. *)
Definition is_positive (p : Q) : bool := bool_decide (0 < p)%Q.

(** The smoothing constant [1e-6]. *)
Definition FLOOR : Q := 1 # 1000000.

(** [string.ascii_lowercase]. *)
Definition letters : list ascii := lit "abcdefghijklmnopqrstuvwxyz".

(** A dict filled key by key over a list of letters, and over the alphabet. *)
Definition fill {X} (g : ascii → X) (m : gmap ascii X) (l : list ascii)
    : gmap ascii X :=
  foldl (λ m s, <[s := g s]> m) m l.

Definition row_of {X} (g : ascii → X) : gmap ascii X := fill g ∅ letters.

Section decoder.
Context {A : LogArith}.

Abbreviation trellis := (list (gmap ascii score)).
Abbreviation paths := (gmap ascii str).

Variable typed : str.
Variables transition_probs emission_probs : table.

(** Lines 115-119, one iteration. *)
Definition init_step (st : trellis * paths) (s : ascii)
    : result (trellis * paths) :=
  let '(V, path) := st in
  let trans_prob := py_get (py_get transition_probs "^"%char ∅) s FLOOR in
  o ← py_index typed 0;
  let emit_prob := py_get (py_get emission_probs s ∅) o FLOOR in
  lt ← math_log trans_prob;
  le ← math_log emit_prob;
  V0 ← py_index V 0;
  Ok (<[0%nat := <[s := fadd lt le]> V0]> V, <[s := [s]]> path).

(** Lines 128-136, one iteration; the loop carries
    [(max_prob, prev_state)]. *)
Definition prev_step (V : trellis) (t : nat) (s : ascii)
    (st : score * option ascii) (s0 : ascii) : result (score * option ascii) :=
  let '(max_prob, prev_state) := st in
  Vp ← py_index V (t - 1);
  let prev_prob := py_get Vp s0 neg_inf in
  let trans_prob := py_get (py_get transition_probs s0 ∅) s FLOOR in
  o ← py_index typed t;
  let emit_prob := py_get (py_get emission_probs s ∅) o FLOOR in
  lt ← math_log trans_prob;
  le ← math_log emit_prob;
  let prob := fadd (fadd prev_prob lt) le in
  Ok (if fgt prob max_prob then (prob, Some s0) else (max_prob, prev_state)).

(** Lines 124-140, one iteration; the loop carries [(V, newpath)]. *)
Definition state_step (t : nat) (path : paths) (st : trellis * paths)
    (s : ascii) : result (trellis * paths) :=
  let '(V, newpath) := st in
  '(max_prob, prev_state) ← for_each letters (neg_inf, None) (prev_step V t s);
  Vt ← py_index V t;
  let V := <[t := <[s := max_prob]> Vt]> V in
  match prev_state with
  | Some p => pp ← py_getitem path p; Ok (V, <[s := pp ++ [s]]> newpath)
  | None => Ok (V, newpath)
  end.

(** Lines 121-142, one iteration; the loop carries [(V, path)]. *)
Definition time_step (st : trellis * paths) (t : nat)
    : result (trellis * paths) :=
  let '(V, path) := st in
  let V := V ++ [∅] in
  for_each letters (V, ∅) (state_step t path).

(** Lines 112-142: the filled trellis and the recorded paths. *)
Definition viterbi_trellis : result (trellis * paths) :=
  st ← for_each letters ([∅], ∅) init_step;
  for_each (range_from 1 (length typed)) st time_step.

(** Lines 146-152, one iteration; the loop carries
    [(max_prob, best_state)].  [len(typed) - 1] is only evaluated for a
    non-empty [typed]: line 117 has raised otherwise. *)
Definition final_step (V : trellis) (st : score * option ascii) (s : ascii)
    : result (score * option ascii) :=
  let '(max_prob, best_state) := st in
  Vl ← py_index V (length typed - 1);
  let last_prob := py_get Vl s neg_inf in
  end_prob ← math_log (py_get (py_get transition_probs s ∅) "$"%char FLOOR);
  let total_prob := fadd last_prob end_prob in
  Ok (if fgt total_prob max_prob then (total_prob, Some s)
      else (max_prob, best_state)).

(** Lines 144-152. *)
Definition viterbi_select (V : trellis) : result (score * option ascii) :=
  for_each letters (neg_inf, None) (final_step V).

(** Lines 154-156. *)
Definition viterbi_output (path : paths) (best_state : option ascii)
    : result str :=
  match best_state with
  | None => Ok typed
  | Some b => py_getitem path b
  end.

Definition viterbi : result str :=
  '(V, path) ← viterbi_trellis;
  '(_, best_state) ← viterbi_select V;
  viterbi_output path best_state.

(** *** The decoder as the specification words it *)

(** [P(b | a)] and [P(o | s)], floored when the pair is absent. *)
Definition P_trans (a b : ascii) : Q :=
  default FLOOR (cell transition_probs a b).
Definition P_emit (s o : ascii) : Q :=
  default FLOOR (cell emission_probs s o).

Definition observed (t : nat) : ascii := nth t typed "000"%char.

Definition fmax (x y : score) : score := if fgt y x then y else x.

(** The maximum of [f] over the alphabet. *)
Definition max_over (f : ascii → score) : score :=
  match letters with
  | [] => neg_inf
  | s :: rest => foldl fmax (f s) (f <$> rest)
  end.

(** The first letter, in alphabetic order, attaining that maximum. *)
Definition first_argmax (f : ascii → score) : ascii :=
  default "a"%char (List.find (λ s, negb (fgt (max_over f) (f s))) letters).

Definition extend (prev : ascii → score) (t : nat) (s s0 : ascii) : score :=
  fadd (fadd (prev s0) (flog (P_trans s0 s))) (flog (P_emit s (observed t))).

Fixpoint best_score (t : nat) (s : ascii) : score :=
  match t with
  | O => fadd (flog (P_trans "^"%char s)) (flog (P_emit s (observed 0)))
  | S t' => max_over (extend (best_score t') t s)
  end.

Fixpoint best_path (t : nat) (s : ascii) : str :=
  match t with
  | O => [s]
  | S t' => best_path t' (first_argmax (extend (best_score t') t s)) ++ [s]
  end.

Definition spec_decode : str :=
  let last := (length typed - 1)%nat in
  best_path last
    (first_argmax (λ s, fadd (best_score last s) (flog (P_trans s "$"%char)))).

(** *** The run of the decoder, for the proofs *)

(** One iteration of the loops at lines 128-136 and 146-152, on a
    candidate score [f s0]. *)
Definition pick (f : ascii → score) (st : score * option ascii) (s0 : ascii)
    : score * option ascii :=
  if fgt (f s0) st.1 then (f s0, Some s0) else st.

(** The arguments that lines 118, 132 and 148 pass to [math.log]. *)
Definition guard_init (s : ascii) : bool :=
  is_positive (P_trans "^"%char s) && is_positive (P_emit s (observed 0)).
Definition guard_prev (t : nat) (s s0 : ascii) : bool :=
  is_positive (P_trans s0 s) && is_positive (P_emit s (observed t)).
Definition guard_time (t : nat) : bool :=
  forallb (λ s, forallb (guard_prev t s) letters) letters.
Definition guard_final (s : ascii) : bool :=
  is_positive (P_trans s "$"%char).

(** All arguments of [math.log] in lines 115-142 are positive. *)
Definition guard_trellis : bool :=
  forallb guard_init letters
  && forallb guard_time (seq 1 (length typed - 1)).

(** All arguments of [math.log] during a run are positive. *)
Definition guard_run : bool :=
  guard_trellis && forallb guard_final letters.

(** Every score of time step [t] is above [-inf]. *)
Definition finite_at (t : nat) : Prop :=
  ∀ s, s ∈ letters → fgt (best_score t s) neg_inf = true.

(** The trellis after time step [t], and the paths recorded by then. *)
Definition trellis_upto (t : nat) : list (gmap ascii score) :=
  (λ j, row_of (best_score j)) <$> seq 0 (S t).
Definition paths_at (t : nat) : gmap ascii str := row_of (best_path t).

(** The score that lines 147-149 compare for the last letter [s]. *)
Definition final_score (s : ascii) : score :=
  fadd (best_score (length typed - 1) s) (flog (P_trans s "$"%char)).
End decoder.

(** The laws of exact arithmetic on log-probabilities that the decoder's
    properties rest on: [>] is a strict weak order, the logarithm of a
    positive probability is above [-inf], and so is the sum of two scores
    that are. *)
Class LogArithLaws (A : LogArith) : Prop := {
  fgt_irrefl (x : score) : fgt x x = false;
  fgt_trans (x y z : score) : fgt x y = true → fgt y z = true → fgt x z = true;
  fgt_cotrans (x y z : score) :
    fgt x z = true → fgt x y = true ∨ fgt y z = true;
  flog_finite (p : Q) : (0 < p)%Q → fgt (flog p) neg_inf = true;
  fadd_finite (x y : score) :
    fgt x neg_inf = true → fgt y neg_inf = true →
    fgt (fadd x y) neg_inf = true;
}.

(** Every stored value of the table is a positive probability. *)
Definition positive_table (tbl : table) : Prop :=
  ∀ a b p, cell tbl a b = Some p → (0 < p)%Q.

(** *** Exact log-arithmetic

    A score that is a finite sum of logarithms of positive rationals is the
    logarithm of their product: [XLog n d] stands for [log (n / d)] and
    [XNegInf] for [-inf]. *)
Inductive xscore : Set :=
  | XNegInf
  | XLog (n d : positive).

Definition xadd (x y : xscore) : xscore :=
  match x, y with
  | XLog a b, XLog c d => XLog (a * c) (b * d)
  | _, _ => XNegInf
  end.

Definition xgt (x y : xscore) : bool :=
  match x, y with
  | XNegInf, _ => false
  | XLog _ _, XNegInf => true
  | XLog a b, XLog c d => (c * b <? a * d)%positive
  end.

Definition xlog (p : Q) : xscore :=
  match Qnum p with
  | Zpos n => XLog n (Qden p)
  | _ => XNegInf
  end.

#[export] Instance exact_arith : LogArith :=
  {| score := xscore; neg_inf := XNegInf; fadd := xadd; fgt := xgt;
     flog := xlog |}.

Definition train_and_decode (pairs : list (str * str)) (word : str)
    : result str :=
  emission_probs ← compute_emissions pairs;
  transition_probs ← compute_transitions pairs;
  viterbi word transition_probs emission_probs.

(** *** Joint scores of letter sequences *)

(** Exact addition of log-scores is monotone: adding the same score to both
    sides cannot create a strict inequality. *)
Class LogArithMono (A : LogArith) : Prop := {
  fadd_mono (x y z : score) :
    fgt x y = false → fgt (fadd x z) (fadd y z) = false;
}.

Section joint_score.
Context {A : LogArith}.
Variable typed : str.
Variables transition_probs emission_probs : table.

(** The score that lines 118 and 132 accumulate along one letter sequence,
    given last letter first: start transition and first emission, then one
    transition and one emission per further position. *)
Fixpoint path_score (rpath : str) : score :=
  match rpath with
  | [] => neg_inf
  | s :: rest =>
      match rest with
      | [] =>
          fadd (flog (P_trans transition_probs "^"%char s))
               (flog (P_emit emission_probs s (observed typed 0)))
      | s0 :: _ =>
          fadd (fadd (path_score rest) (flog (P_trans transition_probs s0 s)))
               (flog (P_emit emission_probs s (observed typed (length rest))))
      end
  end.

(** The score line 149 adds the end transition to. *)
Definition total_score (path : str) : score :=
  match rev path with
  | [] => neg_inf
  | s :: _ =>
      fadd (path_score (rev path)) (flog (P_trans transition_probs s "$"%char))
  end.

(** Every argument that a run on [typed] passes to [math.log] is
    positive. *)
Definition lookups_positive : Prop :=
  (∀ s, s ∈ letters →
     (0 < P_trans transition_probs "^"%char s)%Q
     ∧ (0 < P_emit emission_probs s (observed typed 0))%Q
     ∧ (0 < P_trans transition_probs s "$"%char)%Q)
  ∧ (∀ t s s0, (1 ≤ t < length typed)%nat → s ∈ letters → s0 ∈ letters →
       (0 < P_trans transition_probs s0 s)%Q
       ∧ (0 < P_emit emission_probs s (observed typed t))%Q).
End joint_score.

(** ** Driver *)

(** Lines 194-197: the vocabulary, in order of first appearance. *)
Definition build_dictionary (pairs : list (str * str)) : list str :=
  foldl (λ dictionary_words pair,
           if decide (pair.1 ∈ dictionary_words) then dictionary_words
           else dictionary_words ++ [pair.1])
        [] pairs.

(** The characters below 256 that [str.split()] separates on. *)
Definition is_space (c : ascii) : bool :=
  let n := nat_of_ascii c in
  ((9 <=? n) && (n <=? 13) || (28 <=? n) && (n <=? 32)
   || (n =? 133) || (n =? 160))%nat.

(** [text.split()]: the maximal runs of non-space characters; [cur] is the
    run being read. *)
Fixpoint split_from (cur : str) (text : str) : list str :=
  match text with
  | [] => match cur with [] => [] | _ => [cur] end
  | c :: text' =>
      if is_space c then
        match cur with
        | [] => split_from [] text'
        | _ => cur :: split_from [] text'
        end
      else split_from (cur ++ [c]) text'
  end.

Definition py_split (text : str) : list str := split_from [] text.

Section driver.
Context {A : LogArith}.

(** [str.lower()] acts character by character on the characters below 256;
    the map itself is left open. *)
Variable lower_char : ascii → ascii.

Definition py_lower (word : str) : str := lower_char <$> word.

(** Lines 208-209. *)
Definition fix_word (word : str) (transition_probs emission_probs : table)
    (dictionary_words : list str) : result str :=
  decoded ← viterbi (py_lower word) transition_probs emission_probs;
  closest_known_word decoded dictionary_words.

(** Lines 206-210: the corrected words of one line of text. *)
Definition correct_text (text : str) (transition_probs emission_probs : table)
    (dictionary_words : list str) : result (list str) :=
  for_each (py_split text) [] (λ corrected word,
    fixed ← fix_word word transition_probs emission_probs dictionary_words;
    Ok (corrected ++ [fixed])).

(** Lines 190-197 followed by lines 206-210. *)
Definition train_and_correct (pairs : list (str * str)) (text : str)
    : result (list str) :=
  emission_probs ← compute_emissions pairs;
  transition_probs ← compute_transitions pairs;
  correct_text text transition_probs emission_probs (build_dictionary pairs).
End driver.

(** * Properties *)

(** ** Concrete runs *)

Example snap_exact :
  closest_known_word (lit "cat") [lit "cat"; lit "car"; lit "bat"]
  = Ok (lit "cat").
Proof. reflexivity. Qed.

Example snap_tie :
  closest_known_word (lit "cet") [lit "cat"; lit "cot"; lit "cap"]
  = Ok (lit "cat").
Proof. vm_compute. reflexivity. Qed.

Example emissions_sample_cell :
  match compute_emissions training_sample with
  | Ok tbl => cell tbl "c" "k" = spec_prob aligned training_sample "c" "k"
              ∧ cell tbl "g" "g" = None
  | Raise _ => False
  end.
Proof. vm_compute. split; reflexivity. Qed.

Example transitions_sample_cell :
  match compute_transitions training_sample with
  | Ok tbl => cell tbl "^" "c" = Some (inject_Z 2 / inject_Z 3)%Q
              ∧ cell tbl "g" "$" = spec_prob adjacent training_sample "g" "$"
  | Raise _ => False
  end.
Proof. vm_compute. split; reflexivity. Qed.

Example decode_cat :
  train_and_decode [(lit "cat", lit "cat")] (lit "cat") = Ok (lit "cat").
Proof. vm_compute. reflexivity. Qed.

Example decode_kat :
  train_and_decode training_sample (lit "kat") = Ok (lit "cat").
Proof. vm_compute. reflexivity. Qed.

Example decode_kat_spec :
  match compute_emissions training_sample, compute_transitions training_sample with
  | Ok E, Ok T => spec_decode (lit "ka") T E = lit "ca"
  | _, _ => False
  end.
Proof. vm_compute. reflexivity. Qed.

(** ** Loops *)

Lemma bind_Ok {A B} (m : result A) (f : A → result B) (b : B) :
  m ≫= f = Ok b ↔ ∃ a, m = Ok a ∧ f a = Ok b.
Proof.
  destruct m as [a|e]; simpl.
  - split; [intros; by exists a | by intros (a' & [= ->] & ?)].
  - split; [done | by intros (? & ? & ?)].
Qed.

Lemma for_each_app {St A} (xs ys : list A) (s : St) body :
  for_each (xs ++ ys) s body = (s' ← for_each xs s body; for_each ys s' body).
Proof.
  revert s. induction xs as [|x xs IH]; intros s; simpl; [done|].
  destruct (body s x); simpl; [apply IH | done].
Qed.

(** A loop whose body never raises is a left fold. *)
Lemma for_each_pure {St A} (step : St → A → St) body (xs : list A) (s : St) :
  (∀ s x, x ∈ xs → body s x = Ok (step s x)) →
  for_each xs s body = Ok (foldl step s xs).
Proof.
  revert s. induction xs as [|x xs IH]; intros s Hb; simpl; [done|].
  rewrite Hb by left. simpl. apply IH. intros; apply Hb. by right.
Qed.

Lemma for_each_ext {St A} body1 body2 (xs : list A) (s : St) :
  (∀ s x, x ∈ xs → body1 s x = body2 s x) →
  for_each xs s body1 = for_each xs s body2.
Proof.
  revert s. induction xs as [|x xs IH]; intros s Hb; simpl; [done|].
  rewrite Hb by left. destruct (body2 s x); simpl; [|done].
  apply IH. intros; apply Hb. by right.
Qed.

(** An index loop over [range(len(l))] whose body only reads [l[i]] is a loop
    over the elements of [l]. *)
Lemma for_each_seq_elems {St A} (l : list A) body (step : St → A → result St) k s :
  (∀ s j x, l !! j = Some x → body s (k + j)%nat = step s x) →
  for_each (seq k (length l)) s body = for_each l s step.
Proof.
  revert k s. induction l as [|x l IH]; intros k s Hb; simpl; [done|].
  specialize (Hb s 0%nat x eq_refl) as Hx. rewrite Nat.add_0_r in Hx.
  rewrite Hx. destruct (step s x); simpl; [|done].
  apply IH. intros s' j y Hj.
  replace (S k + j)%nat with (k + S j)%nat by lia. by apply Hb.
Qed.

Lemma py_index_lookup {A} (l : list A) i x :
  l !! i = Some x → py_index l i = Ok x.
Proof. unfold py_index. by intros ->. Qed.

(** ** Vocabulary snapper *)

Lemma word_dist_loop (word candidate : str) k n d :
  (k + n ≤ length word)%nat → (k + n ≤ length candidate)%nat →
  for_each (seq k n) d (λ dist i,
    wc ← py_index word i;
    cc ← py_index candidate i;
    Ok (if decide (wc ≠ cc) then dist + 1 else dist))
  = Ok (d + Z.of_nat (length (filter (λ i, word !! i ≠ candidate !! i)
                                (seq k n)))).
Proof.
  revert k d. induction n as [|n IH]; intros k d Hw Hc; simpl.
  { f_equal. lia. }
  destruct (lookup_lt_is_Some_2 word k) as [wc Hwc]; [lia|].
  destruct (lookup_lt_is_Some_2 candidate k) as [cc Hcc]; [lia|].
  rewrite (py_index_lookup _ _ _ Hwc), (py_index_lookup _ _ _ Hcc). simpl.
  rewrite IH by lia. f_equal.
  rewrite filter_cons.
  destruct (decide (wc = cc)) as [->|Hne].
  - rewrite (decide_False (P := cc ≠ cc)) by auto.
    rewrite decide_False by (rewrite Hwc, Hcc; auto). lia.
  - rewrite (decide_True (P := wc ≠ cc)) by auto.
    rewrite decide_True by (rewrite Hwc, Hcc; congruence). simpl. lia.
Qed.

(** The loop of lines 177-181 computes the distance of the specification and
    never raises. *)
Lemma word_dist_spec (word candidate : str) :
  word_dist word candidate = Ok (spec_distance word candidate).
Proof. unfold word_dist, range. apply word_dist_loop; lia. Qed.

Lemma spec_distance_le_max (word candidate : str) :
  spec_distance word candidate
  ≤ Z.max (Z.of_nat (length word)) (Z.of_nat (length candidate)).
Proof.
  unfold spec_distance.
  pose proof (length_filter (λ i, word !! i ≠ candidate !! i)
                (seq 0 (Nat.min (length word) (length candidate)))) as Hf.
  rewrite length_seq in Hf. lia.
Qed.

Lemma spec_distance_nonneg (word candidate : str) : 0 ≤ spec_distance word candidate.
Proof. unfold spec_distance. lia. Qed.

Lemma scan_loop candidate vocabulary st :
  for_each vocabulary st (scan_step candidate)
  = Ok (foldl (scan_pure candidate) st vocabulary).
Proof.
  apply for_each_pure. intros [b bs] w _. unfold scan_step, scan_pure.
  rewrite word_dist_spec. simpl. by case_decide.
Qed.

Lemma list_min_le d l : list_min d l ≤ d.
Proof. unfold list_min. induction l; simpl; lia. Qed.

Lemma list_min_cons d x l : list_min d (x :: l) = Z.min x (list_min d l).
Proof. reflexivity. Qed.

Lemma list_min_min d d' l :
  Z.min d (list_min d' l) = list_min (Z.min d d') l.
Proof. unfold list_min. induction l; simpl; lia. Qed.

Lemma list_min_mono d d' l : d ≤ d' → list_min d l ≤ list_min d' l.
Proof. intros Hd. unfold list_min. induction l; simpl; lia. Qed.

Lemma list_min_default d d' l :
  list_min d l < d → d ≤ d' → list_min d' l = list_min d l.
Proof.
  intros Hlt Hle. induction l as [|y l IH].
  - unfold list_min in Hlt. simpl in Hlt. lia.
  - rewrite !list_min_cons in *.
    pose proof (list_min_le d l). pose proof (list_min_mono d d' l Hle).
    destruct (decide (list_min d l < d)) as [Hl|Hl]; [rewrite IH by done|]; lia.
Qed.

Lemma list_min_lt_iff d l bound :
  list_min d l < bound ↔ d < bound ∨ ∃ x, x ∈ l ∧ x < bound.
Proof.
  induction l as [|x l IH]; simpl.
  - split; [auto | intros [?|(? & []%elem_of_nil & _)]; done].
  - rewrite Z.min_lt_iff, IH. split.
    + intros [?|[?|(y & ? & ?)]]; [right; exists x|auto|right; exists y];
        split; auto; by constructor.
    + intros [?|(y & [->|?]%elem_of_cons & ?)]; eauto.
Qed.

(** What the scan leaves in [(best, best_score)]: the least of the initial
    score and all distances, and, when that is below the initial score, the
    first word attaining it. *)
Lemma scan_result candidate vocabulary best best_score :
  let st := foldl (scan_pure candidate) (best, best_score) vocabulary in
  st.2 = list_min best_score ((λ w, spec_distance w candidate) <$> vocabulary)
  ∧ (if decide (st.2 < best_score) then
       List.find (λ w, bool_decide (spec_distance w candidate = st.2))
         vocabulary = Some st.1
     else st.1 = best).
Proof.
  revert best best_score.
  induction vocabulary as [|w l IH]; intros b bs.
  - simpl. split; [done|]. by rewrite decide_False by lia.
  - cbn [foldl List.find]. rewrite fmap_cons, list_min_cons.
    set (dw := spec_distance w candidate).
    destruct (decide (dw < bs)) as [Hlt|Hge].
    + assert (scan_pure candidate (b, bs) w = (w, dw)) as ->
        by (unfold scan_pure; simpl; by rewrite decide_True).
      destruct (IH w dw) as [Hmin Hbest]. fold dw in Hmin.
      set (st := foldl (scan_pure candidate) (w, dw) l) in *.
      pose proof (list_min_le dw ((λ w, spec_distance w candidate) <$> l)).
      pose proof (list_min_le bs ((λ w, spec_distance w candidate) <$> l)).
      split.
      * rewrite Hmin, list_min_min. f_equal. lia.
      * rewrite decide_True by lia.
        destruct (decide (st.2 < dw)) as [Hlt'|Hge'].
        -- rewrite bool_decide_eq_false_2 by (fold dw; lia). done.
        -- rewrite bool_decide_eq_true_2 by (fold dw; lia).
           by rewrite Hbest.
    + assert (scan_pure candidate (b, bs) w = (b, bs)) as ->
        by (unfold scan_pure; simpl; by rewrite decide_False).
      destruct (IH b bs) as [Hmin Hbest].
      set (st := foldl (scan_pure candidate) (b, bs) l) in *.
      pose proof (list_min_le bs ((λ w, spec_distance w candidate) <$> l)).
      split; [fold dw; lia|].
      destruct (decide (st.2 < bs)) as [Hlt'|Hge']; [|done].
      rewrite bool_decide_eq_false_2 by (fold dw; lia). done.
Qed.

Lemma within_sentinel_spec candidate vocabulary :
  within_sentinel candidate vocabulary
  ↔ ∃ w, w ∈ vocabulary ∧ spec_distance w candidate < BEST_SCORE_INIT.
Proof.
  unfold within_sentinel. split.
  - intros (w & d & Hw & Hd & Hlt). rewrite word_dist_spec in Hd.
    injection Hd as <-. eauto.
  - intros (w & Hw & Hlt). exists w, (spec_distance w candidate).
    by rewrite word_dist_spec.
Qed.

Lemma within_sentinel_min candidate vocabulary :
  within_sentinel candidate vocabulary
  ↔ list_min BEST_SCORE_INIT ((λ w, spec_distance w candidate) <$> vocabulary)
    < BEST_SCORE_INIT.
Proof.
  rewrite within_sentinel_spec, list_min_lt_iff. split.
  - intros (w & Hw & Hlt). right. exists (spec_distance w candidate).
    split; [|done]. apply list_elem_of_fmap. eauto.
  - intros [?|(d & Hd & Hlt)]; [lia|].
    apply list_elem_of_fmap in Hd as (w & -> & Hw). eauto.
Qed.

Lemma closest_known_word_scan candidate vocabulary :
  candidate ∉ vocabulary →
  closest_known_word candidate vocabulary
  = Ok (foldl (scan_pure candidate) (candidate, BEST_SCORE_INIT) vocabulary).1.
Proof.
  intros Hnot. unfold closest_known_word.
  rewrite decide_False by done. by rewrite scan_loop.
Qed.

Lemma find_elem_of {A} (P : A → bool) (l : list A) x :
  List.find P l = Some x → x ∈ l.
Proof. intros [Hin _]%find_some. by apply list_elem_of_In. Qed.

(** Words shorter than the sentinel always score below it. *)
Lemma short_words_within_sentinel (candidate w : str) vocabulary :
  w ∈ vocabulary →
  Z.of_nat (length w) < BEST_SCORE_INIT →
  Z.of_nat (length candidate) < BEST_SCORE_INIT →
  within_sentinel candidate vocabulary.
Proof.
  intros Hw Hlw Hlc. apply within_sentinel_spec. exists w. split; [done|].
  pose proof (spec_distance_le_max w candidate). lia.
Qed.

Lemma spec_distance_replicate_nil n (c : ascii) :
  spec_distance (replicate n c) [] = Z.of_nat n.
Proof.
  unfold spec_distance. rewrite length_replicate, Nat.min_0_r.
  change (length (@nil ascii)) with 0%nat.
  change (seq 0 0) with (@nil nat). rewrite filter_nil.
  change (length (@nil nat)) with 0%nat. lia.
Qed.

Lemma closest_known_word_replicate n (c : ascii) :
  BEST_SCORE_INIT ≤ Z.of_nat n →
  closest_known_word [] [replicate n c] = Ok [].
Proof.
  intros Hn. assert (n ≠ 0%nat) as Hn0 by (unfold BEST_SCORE_INIT in Hn; lia).
  rewrite closest_known_word_scan.
  - cbn [foldl]. unfold scan_pure. rewrite spec_distance_replicate_nil.
    cbn [snd]. by rewrite decide_False by lia.
  - intros Hin%list_elem_of_singleton. destruct n; [done|discriminate Hin].
Qed.

Lemma spec_snap_replicate n (c : ascii) :
  n ≠ 0%nat → spec_snap [] [replicate n c] = replicate n c.
Proof.
  intros Hn0. unfold spec_snap. rewrite decide_False.
  - cbn [fmap list_fmap List.find]. rewrite list_min_cons.
    change (list_min ?d []) with d. rewrite Z.min_id.
    by rewrite bool_decide_eq_true_2.
  - intros Hin%list_elem_of_singleton. destruct n; [done|discriminate Hin].
Qed.

Lemma far_word_far : BEST_SCORE_INIT ≤ Z.of_nat (Z.to_nat (10 ^ 9)).
Proof. rewrite Z2Nat.id; unfold BEST_SCORE_INIT; lia. Qed.

(** C8. With an empty vocabulary the snapper returns the candidate
    unchanged, and it does not raise. *)
Theorem snap_empty_vocabulary (candidate : str) :
  closest_known_word candidate [] = Ok candidate.
Proof.
  rewrite closest_known_word_scan; [done|]. apply not_elem_of_nil.
Qed.

(** C10. For a candidate that is not in a non-empty vocabulary, the snapper
    returns what a scan started at [(candidate, 10**9)] and replacing its
    pair only on a strictly smaller distance leaves; the result is a
    vocabulary word exactly when some vocabulary word scores strictly below
    [10**9], and otherwise it is the candidate, which is not a vocabulary
    word. *)
Theorem snap_sentinel (candidate : str) (vocabulary : list str) :
  candidate ∉ vocabulary →
  vocabulary ≠ [] →
  ∃ out,
    closest_known_word candidate vocabulary = Ok out
    ∧ out = (foldl (scan_pure candidate) (candidate, BEST_SCORE_INIT)
               vocabulary).1
    ∧ (out ∈ vocabulary ↔ within_sentinel candidate vocabulary)
    ∧ (¬ within_sentinel candidate vocabulary →
       out = candidate ∧ out ∉ vocabulary).
Proof.
  intros Hnot _. eexists. split; [by apply closest_known_word_scan|].
  split; [done|].
  destruct (scan_result candidate vocabulary candidate BEST_SCORE_INIT)
    as [Hmin Hbest].
  set (st := foldl (scan_pure candidate) (candidate, BEST_SCORE_INIT)
               vocabulary) in *.
  rewrite within_sentinel_min, <- Hmin.
  destruct (decide (st.2 < BEST_SCORE_INIT)) as [Hlt|Hge].
  - apply find_elem_of in Hbest. split; [done|]. intros []; done.
  - rewrite Hbest. split; [|done]. split; [done|lia].
Qed.

Lemma snap_sentinel_witness :
  (lit "cet" ∉ [lit "cat"; lit "cot"]) ∧ ([lit "cat"; lit "cot"] ≠ []) ∧
  (∃ out,
    closest_known_word (lit "cet") [lit "cat"; lit "cot"] = Ok out
    ∧ out = (foldl (scan_pure (lit "cet")) (lit "cet", BEST_SCORE_INIT)
               [lit "cat"; lit "cot"]).1
    ∧ (out ∈ [lit "cat"; lit "cot"]
       ↔ within_sentinel (lit "cet") [lit "cat"; lit "cot"])
    ∧ (¬ within_sentinel (lit "cet") [lit "cat"; lit "cot"] →
       out = lit "cet" ∧ out ∉ [lit "cat"; lit "cot"])).
Proof.
  assert (lit "cet" ∉ [lit "cat"; lit "cot"]) as Hnot
    by (apply (bool_decide_unpack _); vm_compute; exact I).
  assert ([lit "cat"; lit "cot"] ≠ []) as Hne by discriminate.
  split; [exact Hnot|]. split; [exact Hne|].
  exact (snap_sentinel (lit "cet") [lit "cat"; lit "cot"] Hnot Hne).
Defined.

(** Below the sentinel. When the candidate is a vocabulary word, or some
    vocabulary word scores strictly below [10**9], the snapper returns a
    vocabulary word. *)
Theorem snap_in_vocabulary (candidate : str) (vocabulary : list str) :
  candidate ∈ vocabulary ∨ within_sentinel candidate vocabulary →
  ∃ out, closest_known_word candidate vocabulary = Ok out ∧ out ∈ vocabulary.
Proof.
  intros Hcase. destruct (decide (candidate ∈ vocabulary)) as [Hin|Hnot].
  - exists candidate. split; [|done].
    unfold closest_known_word. by rewrite decide_True.
  - destruct Hcase as [?|Hnear]; [done|].
    eexists. split; [by apply closest_known_word_scan|].
    destruct (scan_result candidate vocabulary candidate BEST_SCORE_INIT)
      as [Hmin Hbest].
    apply within_sentinel_min in Hnear. rewrite <- Hmin in Hnear.
    rewrite decide_True in Hbest by done. by apply find_elem_of in Hbest.
Qed.

Lemma snap_in_vocabulary_witness :
  (lit "cet" ∈ [lit "cat"; lit "cot"; lit "cap"]
   ∨ within_sentinel (lit "cet") [lit "cat"; lit "cot"; lit "cap"])
  ∧ ∃ out,
      closest_known_word (lit "cet") [lit "cat"; lit "cot"; lit "cap"] = Ok out
      ∧ out ∈ [lit "cat"; lit "cot"; lit "cap"].
Proof.
  assert (within_sentinel (lit "cet") [lit "cat"; lit "cot"; lit "cap"]) as Hnear.
  { exists (lit "cat"), 1. split; [by left|]. split; [reflexivity|].
    unfold BEST_SCORE_INIT. lia. }
  split; [by right|]. apply snap_in_vocabulary. by right.
Defined.

(** C7, at a vocabulary whose only word has [10**9] letters: its distance
    to the empty candidate is [10**9], which is not strictly below the
    initial [best_score]; the snapper returns the empty candidate, which is
    not a vocabulary word, where its docstring promises the closest word of
    the dictionary. *)
Lemma snap_far_word_not_in_vocabulary :
  [far_word] ≠ []
  ∧ ¬ ∃ out, closest_known_word [] [far_word] = Ok out ∧ out ∈ [far_word].
Proof.
  split; [discriminate|]. intros (out & Hout & Hin).
  unfold far_word in *.
  rewrite (closest_known_word_replicate _ _ far_word_far) in Hout.
  injection Hout as <-. apply list_elem_of_singleton in Hin.
  apply (f_equal length) in Hin. rewrite length_replicate in Hin.
  pose proof far_word_far as Hfar. unfold BEST_SCORE_INIT in Hfar.
  rewrite <- Hin in Hfar. change (length (@nil ascii)) with 0%nat in Hfar. lia.
Qed.

(** Below the sentinel. Whenever a candidate outside a non-empty
    vocabulary has a vocabulary word scoring strictly below [10**9], and for
    every exact hit and every empty vocabulary, the snapper returns the
    result of the reference definition. *)
Theorem snap_refines_spec (candidate : str) (vocabulary : list str) :
  (candidate ∉ vocabulary → vocabulary ≠ [] →
   within_sentinel candidate vocabulary) →
  closest_known_word candidate vocabulary = Ok (spec_snap candidate vocabulary).
Proof.
  intros Hnear. unfold spec_snap.
  destruct (decide (candidate ∈ vocabulary)) as [Hin|Hnot].
  { unfold closest_known_word. by rewrite decide_True. }
  rewrite closest_known_word_scan by done.
  destruct vocabulary as [|w0 l]; [done|].
  specialize (Hnear Hnot ltac:(discriminate)).
  destruct (scan_result candidate (w0 :: l) candidate BEST_SCORE_INIT)
    as [Hmin Hbest].
  set (st := foldl (scan_pure candidate) (candidate, BEST_SCORE_INIT)
               (w0 :: l)) in *.
  apply within_sentinel_min in Hnear. rewrite <- Hmin in Hnear.
  rewrite decide_True in Hbest by done.
  assert (list_min (spec_distance w0 candidate)
            ((λ w, spec_distance w candidate) <$> w0 :: l) = st.2) as ->.
  { rewrite Hmin in *. rewrite fmap_cons in *.
    set (d0 := spec_distance w0 candidate) in *.
    set (ds := (λ w, spec_distance w candidate) <$> l) in *.
    destruct (Z.le_gt_cases d0 BEST_SCORE_INIT) as [Hle|Hgt].
    - rewrite !list_min_cons, !list_min_min. f_equal. lia.
    - apply list_min_default; [done|lia]. }
  by rewrite Hbest.
Qed.

Lemma snap_refines_spec_witness :
  (lit "cet" ∉ [lit "cat"; lit "cot"; lit "cap"] →
   [lit "cat"; lit "cot"; lit "cap"] ≠ [] →
   within_sentinel (lit "cet") [lit "cat"; lit "cot"; lit "cap"])
  ∧ closest_known_word (lit "cet") [lit "cat"; lit "cot"; lit "cap"]
    = Ok (spec_snap (lit "cet") [lit "cat"; lit "cot"; lit "cap"]).
Proof.
  assert (within_sentinel (lit "cet") [lit "cat"; lit "cot"; lit "cap"]) as Hnear.
  { exists (lit "cot"), 1. split; [right; by left|]. split; [reflexivity|].
    unfold BEST_SCORE_INIT. lia. }
  split; [done|]. apply snap_refines_spec. done.
Defined.

(** C4, at a vocabulary whose only word has [10**9] letters: the reference
    definition selects that word as the minimum of the scan, the snapper
    returns the empty candidate because [10**9] stands in for infinity in
    line 174. *)
Lemma snap_far_word_differs_from_spec :
  closest_known_word [] [far_word] ≠ Ok (spec_snap [] [far_word]).
Proof.
  pose proof far_word_far as Hfar. unfold BEST_SCORE_INIT in Hfar.
  unfold far_word.
  rewrite (closest_known_word_replicate _ _ far_word_far).
  rewrite spec_snap_replicate by lia.
  intros Heq. assert ([] = replicate (Z.to_nat (10 ^ 9)) "a"%char) as Hnil
    by congruence.
  apply (f_equal length) in Hnil. rewrite length_replicate in Hnil.
  rewrite <- Hnil in Hfar. change (length (@nil ascii)) with 0%nat in Hfar. lia.
Qed.

(** ** Model trainer *)

(** *** One increment *)

(** Lines 46-50 never raise: both subscripts read a key that the guard just
    before them has created. *)
Lemma bump_Ok d a b : bump d a b = Ok (bump_pure d (a, b)).
Proof.
  unfold bump, bump_pure, count_of, cell, py_getitem. simpl.
  destruct (d !! a) as [row|] eqn:Hrow; simpl.
  - rewrite Hrow. simpl. destruct (row !! b) as [n|] eqn:Hn; simpl.
    + by rewrite Hn.
    + rewrite lookup_insert_eq. simpl. by rewrite insert_insert_eq.
  - rewrite lookup_insert_eq. simpl. rewrite lookup_empty, lookup_insert_eq.
    simpl. by rewrite !insert_insert_eq.
Qed.

Lemma cell_bump_pure d a b c t :
  cell (bump_pure d (a, b)) c t
  = if decide ((a, b) = (c, t)) then Some (count_of d a b + 1) else cell d c t.
Proof.
  unfold bump_pure, cell. simpl.
  destruct (decide (a = c)) as [->|Hac].
  - rewrite lookup_insert_eq. simpl.
    destruct (decide (b = t)) as [->|Hbt].
    + rewrite lookup_insert_eq. by rewrite decide_True.
    + rewrite lookup_insert_ne by done. rewrite decide_False by congruence.
      destruct (d !! c); simpl; [done|apply lookup_empty].
  - rewrite lookup_insert_ne by done. by rewrite decide_False by congruence.
Qed.

Lemma row_bump_pure d a b c :
  is_Some (bump_pure d (a, b) !! c) ↔ a = c ∨ is_Some (d !! c).
Proof.
  unfold bump_pure. simpl. rewrite lookup_insert_is_Some.
  destruct (decide (a = c)); intuition.
Qed.

Lemma occurrences_nil x : occurrences x [] = 0.
Proof. reflexivity. Qed.

Lemma occurrences_app x l1 l2 :
  occurrences x (l1 ++ l2) = occurrences x l1 + occurrences x l2.
Proof. unfold occurrences. rewrite filter_app, length_app. lia. Qed.

Lemma occurrences_singleton x y :
  occurrences x [y] = if decide (y = x) then 1 else 0.
Proof.
  unfold occurrences. rewrite filter_cons, filter_nil. by case_decide.
Qed.

Lemma occurrences_nonneg x l : 0 ≤ occurrences x l.
Proof. unfold occurrences. lia. Qed.

Lemma occurrences_pos x l : 0 < occurrences x l ↔ x ∈ l.
Proof.
  unfold occurrences. induction l as [|y l IH].
  - rewrite filter_nil. simpl. split; [lia|by intros ?%elem_of_nil].
  - rewrite filter_cons, elem_of_cons. case_decide; simpl.
    + split; [auto|lia].
    + rewrite IH. split; [auto|]. by intros [->|?].
Qed.

(** *** The counting loops *)

Lemma counted_empty : counted ∅ [].
Proof.
  split.
  - intros a b. unfold cell. by rewrite lookup_empty.
  - intros a [? Hrow]. by rewrite lookup_empty in Hrow.
Qed.

Lemma counted_bump d evs ab :
  counted d evs → counted (bump_pure d ab) (evs ++ [ab]).
Proof.
  destruct ab as [a b]. intros [Hcell Hrow]. split.
  - intros c t. rewrite cell_bump_pure, occurrences_app, occurrences_singleton.
    pose proof (occurrences_nonneg (c, t) evs).
    destruct (decide ((a, b) = (c, t))) as [[= -> ->]|Hne].
    + unfold count_of. rewrite Hcell. rewrite (decide_False (P := _ + 1 = 0)) by lia.
      case_decide as H0; simpl; [rewrite H0; done|done].
    + rewrite Hcell, Z.add_0_r. done.
  - intros c [Hc|Hc]%row_bump_pure.
    + subst c. exists b. apply elem_of_app. right. by left.
    + destruct (Hrow c Hc) as [t Ht]. exists t. apply elem_of_app. by left.
Qed.

Lemma counted_foldl d acc evs :
  counted d acc → counted (foldl bump_pure d evs) (acc ++ evs).
Proof.
  revert d acc. induction evs as [|ab evs IH]; intros d acc Hd; simpl.
  - by rewrite app_nil_r.
  - replace (acc ++ ab :: evs) with ((acc ++ [ab]) ++ evs)
      by (by rewrite <- app_assoc).
    apply IH. by apply counted_bump.
Qed.

Lemma bump_loop d (evs : list (ascii * ascii)) :
  for_each evs d (λ d ab, bump d ab.1 ab.2) = Ok (foldl bump_pure d evs).
Proof. apply for_each_pure. intros d' [a b] _. apply bump_Ok. Qed.

(** Lines 38-50: the index loop visits the aligned positions. *)
Lemma emission_loop (correct typed : str) d :
  (let len := length correct in
   let len := if decide (length typed < len)%nat then length typed else len in
   for_each (range len) d (λ emissions i,
     c_char ← py_index correct i;
     t_char ← py_index typed i;
     bump emissions c_char t_char))
  = Ok (foldl bump_pure d (aligned (correct, typed))).
Proof.
  simpl. rewrite <- bump_loop. unfold range, aligned. simpl.
  replace (if decide (length typed < length correct)%nat
           then length typed else length correct)
    with (length (zip correct typed))
    by (rewrite length_zip; case_decide; lia).
  apply for_each_seq_elems. intros d' j [a b] Hj. simpl.
  apply lookup_zip_with_Some in Hj as (a' & b' & [= <- <-] & Ha & Hb).
  by rewrite (py_index_lookup _ _ _ Ha), (py_index_lookup _ _ _ Hb).
Qed.

(** Lines 76-85: the index loop visits the adjacent pairs of the padded
    word. *)
Lemma transition_loop (correct : str) d :
  (let word := lit "^" ++ correct ++ lit "$" in
   for_each (range (length word - 1)) d (λ transitions i,
     a ← py_index word i;
     b ← py_index word (i + 1);
     bump transitions a b))
  = Ok (foldl bump_pure d (adjacent (correct, correct))).
Proof.
  rewrite <- bump_loop. unfold range, adjacent. cbn [fst]. cbv zeta.
  set (word := lit "^" ++ correct ++ lit "$").
  replace (length word - 1)%nat with (length (zip word (tail word)))
    by (rewrite length_zip, length_tl; lia).
  apply for_each_seq_elems. intros d' j [a b] Hj. simpl.
  apply lookup_zip_with_Some in Hj as (a' & b' & [= <- <-] & Ha & Hb).
  rewrite lookup_tail in Hb. rewrite Nat.add_1_r.
  by rewrite (py_index_lookup _ _ _ Ha), (py_index_lookup _ _ _ Hb).
Qed.

Lemma spec_count_occurrences events pairs a b :
  spec_count events pairs a b = occurrences (a, b) (all_events events pairs).
Proof.
  unfold spec_count, all_events. induction pairs as [|p pairs IH].
  - done.
  - rewrite !fmap_cons. cbn [foldr concat]. rewrite occurrences_app.
    by rewrite IH.
Qed.

Lemma count_loop events body pairs d acc :
  (∀ d pair, body d pair = Ok (foldl bump_pure d (events pair))) →
  counted d acc →
  ∃ d', for_each pairs d body = Ok d'
        ∧ counted d' (acc ++ all_events events pairs).
Proof.
  intros Hbody. revert d acc.
  induction pairs as [|p pairs IH]; intros d acc Hd; simpl.
  - exists d. by rewrite app_nil_r.
  - rewrite Hbody. simpl. unfold all_events. simpl. rewrite app_assoc.
    apply IH. by apply counted_foldl.
Qed.

Lemma count_emissions_counted pairs :
  ∃ d, count_emissions pairs = Ok d ∧ counted d (all_events aligned pairs).
Proof.
  apply (count_loop aligned _ pairs ∅ []); [|apply counted_empty].
  intros d [correct typed]. apply emission_loop.
Qed.

Lemma adjacent_fst correct typed :
  adjacent (correct, typed) = adjacent (correct, correct).
Proof. reflexivity. Qed.

Lemma count_transitions_counted pairs :
  ∃ d, count_transitions pairs = Ok d ∧ counted d (all_events adjacent pairs).
Proof.
  apply (count_loop adjacent _ pairs ∅ []); [|apply counted_empty].
  intros d [correct typed]. rewrite adjacent_fst. apply transition_loop.
Qed.

(** *** Normalisation *)

Lemma dict_map_Ok {A B} (f : A → result B) (g : A → B) (d : gmap ascii A) :
  (∀ k a, d !! k = Some a → f a = Ok (g a)) →
  dict_map f d = Ok (g <$> d).
Proof.
  unfold dict_map.
  apply (map_fold_weak_ind (λ r m,
    (∀ k a, m !! k = Some a → f a = Ok (g a)) → r = Ok (g <$> m))).
  - intros _. by rewrite fmap_empty.
  - intros k a m r Hk IH Hf.
    rewrite IH by (intros k' a' Hk'; apply (Hf k');
                   rewrite lookup_insert_ne; [done|congruence]).
    simpl. rewrite (Hf k a) by apply lookup_insert_eq. simpl.
    by rewrite fmap_insert.
Qed.

Lemma row_total_empty : row_total ∅ = 0.
Proof. unfold row_total. apply map_fold_empty. Qed.

Lemma row_total_insert row t n :
  row !! t = None → row_total (<[t := n]> row) = row_total row + n.
Proof.
  intros Ht. unfold row_total. rewrite map_fold_insert_L; [done| |done].
  intros. lia.
Qed.

Lemma sum_over_ext f g l :
  (∀ c, c ∈ l → f c = g c) → sum_over f l = sum_over g l.
Proof.
  unfold sum_over. induction l as [|c l IH]; intros Hfg; [done|].
  rewrite !fmap_cons. cbn [foldr].
  rewrite Hfg by left. rewrite IH; [done|]. intros; apply Hfg. by right.
Qed.

Lemma sum_over_insert (row : gmap ascii Z) t n l :
  row !! t = None → NoDup l →
  sum_over (λ c, default 0 (<[t := n]> row !! c)) l
  = sum_over (λ c, default 0 (row !! c)) l + (if decide (t ∈ l) then n else 0).
Proof.
  intros Ht. unfold sum_over.
  induction l as [|c l IH]; intros Hnd.
  - rewrite decide_False by apply not_elem_of_nil. done.
  - rewrite !fmap_cons. cbn [foldr].
    apply NoDup_cons in Hnd as [Hc Hnd]. rewrite IH by done.
    destruct (decide (t = c)) as [->|Hne].
    + rewrite lookup_insert_eq, Ht. simpl.
      rewrite (decide_True (P := c ∈ c :: l)) by left.
      rewrite decide_False by done. lia.
    + rewrite lookup_insert_ne by done.
      destruct (decide (t ∈ l)).
      * rewrite decide_True by (by right). lia.
      * rewrite decide_False; [lia|].
        intros [?|?]%elem_of_cons; done.
Qed.

Lemma all_chars_complete c : c ∈ all_chars.
Proof.
  unfold all_chars. apply list_elem_of_fmap. exists (nat_of_ascii c). split.
  - by rewrite ascii_nat_embedding.
  - apply elem_of_seq. pose proof (nat_ascii_bounded c). lia.
Qed.

Lemma all_chars_NoDup : NoDup all_chars.
Proof. apply (bool_decide_unpack _). vm_compute. exact I. Qed.

(** The total accumulated by lines 54-56 is the sum of the row over all
    characters. *)
Lemma row_total_sum (row : gmap ascii Z) :
  row_total row = sum_over (λ c, default 0 (row !! c)) all_chars.
Proof.
  induction row as [|t n row Ht IH] using map_ind.
  - rewrite row_total_empty. unfold sum_over.
    induction all_chars as [|c l IHl]; [done|].
    rewrite fmap_cons. cbn [foldr]. rewrite lookup_empty. simpl. lia.
  - rewrite row_total_insert by done.
    rewrite sum_over_insert by (done || apply all_chars_NoDup).
    rewrite decide_True by apply all_chars_complete. lia.
Qed.

Lemma row_total_bounds (row : gmap ascii Z) :
  (∀ t n, row !! t = Some n → 0 < n) →
  ∀ t n, row !! t = Some n → 0 < n ≤ row_total row.
Proof.
  induction row as [|t' n' row Ht IH] using map_ind; intros Hpos t n Hn.
  - by rewrite lookup_empty in Hn.
  - rewrite row_total_insert by done.
    assert (0 < n') by (apply (Hpos t'), lookup_insert_eq).
    assert (∀ t n, row !! t = Some n → 0 < n) as Hpos'.
    { intros t0 n0 H0. apply (Hpos t0). rewrite lookup_insert_ne; [done|].
      congruence. }
    assert (0 ≤ row_total row).
    { clear -Hpos'. induction row as [|k x row Hk IHr] using map_ind.
      - by rewrite row_total_empty.
      - rewrite row_total_insert by done.
        assert (0 < x) by (apply (Hpos' k), lookup_insert_eq).
        assert (0 ≤ row_total row); [|lia].
        apply IHr. intros t0 n0 H0. apply (Hpos' t0).
        rewrite lookup_insert_ne; [done|congruence]. }
    destruct (decide (t' = t)) as [->|Hne].
    + rewrite lookup_insert_eq in Hn. injection Hn as <-. lia.
    + rewrite lookup_insert_ne in Hn by done.
      specialize (IH Hpos' t n Hn). lia.
Qed.

Lemma normalize_Ok (d : counts) :
  (∀ a row, d !! a = Some row → row_total row ≠ 0) →
  normalize d = Ok (normalize_row <$> d).
Proof.
  intros Htot. unfold normalize. apply dict_map_Ok. intros a row Hrow.
  cbv zeta. apply dict_map_Ok. intros b n _.
  unfold true_div. by rewrite decide_False by eauto.
Qed.

Lemma cell_normalize (d : counts) a b :
  cell (normalize_row <$> d) a b
  = match d !! a with
    | Some row => (λ n, inject_Z n / inject_Z (row_total row))%Q <$> row !! b
    | None => None
    end.
Proof.
  unfold cell. rewrite lookup_fmap. destruct (d !! a) as [row|]; simpl; [|done].
  unfold normalize_row. by rewrite lookup_fmap.
Qed.

(** What a row of a counted table holds. *)
Lemma counted_row d evs a row :
  counted d evs → d !! a = Some row →
  (∀ b, row !! b = if decide (occurrences (a, b) evs = 0) then None
                   else Some (occurrences (a, b) evs))
  ∧ 0 < row_total row
  ∧ row_total row = sum_over (λ b, occurrences (a, b) evs) all_chars.
Proof.
  intros [Hcell Hrows] Hrow.
  assert (∀ b, row !! b = if decide (occurrences (a, b) evs = 0) then None
                          else Some (occurrences (a, b) evs)) as Hb.
  { intros b. rewrite <- Hcell. unfold cell. by rewrite Hrow. }
  assert (∀ t n, row !! t = Some n → 0 < n) as Hpos.
  { intros t n. rewrite Hb. pose proof (occurrences_nonneg (a, t) evs).
    case_decide; [done|]. intros [= <-]. lia. }
  split; [done|]. split.
  - destruct (Hrows a) as [b Hin]; [by rewrite Hrow|].
    apply occurrences_pos in Hin.
    assert (row !! b = Some (occurrences (a, b) evs)) as Hsome
      by (rewrite Hb; apply decide_False; lia).
    pose proof (row_total_bounds row Hpos b _ Hsome). lia.
  - rewrite row_total_sum. apply sum_over_ext. intros c _. rewrite Hb.
    by case_decide.
Qed.

Lemma spec_row_total_occurrences events pairs a :
  spec_row_total events pairs a
  = sum_over (λ b, occurrences (a, b) (all_events events pairs)) all_chars.
Proof.
  unfold spec_row_total. apply sum_over_ext. intros b _.
  apply spec_count_occurrences.
Qed.

(** Normalising a counted table yields the probabilities of the
    specification. *)
Lemma normalize_counted events pairs d :
  counted d (all_events events pairs) →
  ∃ tbl, normalize d = Ok tbl
         ∧ tbl = normalize_row <$> d
         ∧ ∀ a b, cell tbl a b = spec_prob events pairs a b.
Proof.
  intros Hd. exists (normalize_row <$> d). split; [|split; [done|]].
  - apply normalize_Ok. intros a row Hrow.
    destruct (counted_row _ _ _ _ Hd Hrow) as (_ & Hpos & _). lia.
  - intros a b. rewrite cell_normalize. unfold spec_prob.
    rewrite spec_count_occurrences, spec_row_total_occurrences.
    destruct (d !! a) as [row|] eqn:Hrow.
    + destruct (counted_row _ _ _ _ Hd Hrow) as (Hb & _ & Htot).
      rewrite Hb, Htot. by case_decide.
    + destruct Hd as [Hcell _]. specialize (Hcell a b).
      unfold cell in Hcell. rewrite Hrow in Hcell. simpl in Hcell.
      case_decide; [done|discriminate].
Qed.

(** C5. The trainer never raises, and each table it returns holds, for
    every pair of characters, the count the specification defines divided
    by the total of its row: aligned positions of (correct, typed) for the
    emissions, adjacent pairs of the padded correct word for the
    transitions. *)
Theorem trainer_refines_spec (pairs : list (str * str)) :
  ∃ emission_probs transition_probs,
    compute_emissions pairs = Ok emission_probs
    ∧ compute_transitions pairs = Ok transition_probs
    ∧ (∀ c t, cell emission_probs c t = spec_prob aligned pairs c t)
    ∧ (∀ a b, cell transition_probs a b = spec_prob adjacent pairs a b).
Proof.
  destruct (count_emissions_counted pairs) as (de & Hde & Hce).
  destruct (count_transitions_counted pairs) as (dt & Hdt & Hct).
  destruct (normalize_counted _ _ _ Hce) as (E & HE & _ & HEs).
  destruct (normalize_counted _ _ _ Hct) as (T & HT & _ & HTs).
  exists E, T. unfold compute_emissions, compute_transitions.
  rewrite Hde, Hdt. simpl. done.
Qed.

(** *** Rows are probability distributions *)

Lemma quotient_bounds n total :
  0 < n ≤ total →
  (0 < inject_Z n / inject_Z total)%Q ∧ (inject_Z n / inject_Z total <= 1)%Q.
Proof.
  intros [Hn Hle]. destruct total as [|p|p]; try lia.
  unfold Qdiv, Qinv, Qmult, Qlt, Qle, inject_Z. simpl. lia.
Qed.

Lemma quotient_sum (total : Z) (l : list (ascii * Z)) :
  (foldr Qplus 0
     ((λ kn : ascii * Z, inject_Z (snd kn) / inject_Z total) <$> l)
   == inject_Z (foldr (λ kn acc, (acc + snd kn)%Z) 0%Z l) / inject_Z total)%Q.
Proof.
  induction l as [|[k n] l IH].
  - simpl. unfold Qdiv. ring.
  - rewrite fmap_cons. cbn [foldr snd]. rewrite IH, inject_Z_plus.
    unfold Qdiv. ring.
Qed.

Lemma row_sum_normalize (row : gmap ascii Z) :
  row_total row ≠ 0 → (row_sum (normalize_row row) == 1)%Q.
Proof.
  intros Htot. unfold row_sum, normalize_row.
  rewrite map_to_list_fmap, <- list_fmap_compose.
  rewrite (list_fmap_ext _
             (λ kn : ascii * Z, inject_Z (snd kn) / inject_Z (row_total row))%Q
             (map_to_list row))
    by (by intros i [k n]).
  rewrite quotient_sum.
  assert (foldr (λ kn : ascii * Z, λ acc, acc + snd kn) 0 (map_to_list row)
          = row_total row) as ->.
  { unfold row_total. rewrite map_fold_foldr.
    induction (map_to_list row) as [|[k n] l IH]; simpl; [done|].
    by rewrite IH. }
  unfold Qdiv. apply Qmult_inv_r. unfold Qeq, inject_Z. simpl. lia.
Qed.

Lemma normalize_stochastic d evs :
  counted d evs → stochastic (normalize_row <$> d).
Proof.
  intros Hd a nrow. rewrite lookup_fmap.
  destruct (d !! a) as [row|] eqn:Hrow; simpl; [|done]. intros [= <-].
  destruct (counted_row _ _ _ _ Hd Hrow) as (Hb & Hpos & _).
  split.
  - apply row_sum_normalize. lia.
  - intros b p. unfold normalize_row. rewrite lookup_fmap.
    destruct (row !! b) as [n|] eqn:Hn; simpl; [|done]. intros [= <-].
    apply quotient_bounds. apply (row_total_bounds row) with b; [|done].
    intros t m. rewrite Hb. pose proof (occurrences_nonneg (a, t) evs).
    case_decide; [done|]. intros [= <-]. lia.
Qed.

Lemma all_events_elem_of events pairs ab :
  ab ∈ all_events events pairs ↔ ∃ pair, pair ∈ pairs ∧ ab ∈ events pair.
Proof.
  unfold all_events. induction pairs as [|p pairs IH].
  - split; [by intros ?%elem_of_nil|by intros (? & ?%elem_of_nil & _)].
  - rewrite fmap_cons. cbn [concat]. rewrite elem_of_app, IH. split.
    + intros [?|(pair & ? & ?)]; [exists p|exists pair];
        (split; [|done]); [by left|by right].
    + intros (pair & [->|?]%elem_of_cons & ?); eauto.
Qed.

Lemma normalize_rows_observed events pairs d a :
  counted d (all_events events pairs) →
  is_Some ((normalize_row <$> d) !! a) →
  ∃ pair b, pair ∈ pairs ∧ (a, b) ∈ events pair.
Proof.
  intros [_ Hrows]. rewrite lookup_fmap, fmap_is_Some. intros Ha.
  destruct (Hrows a Ha) as [b Hb].
  apply all_events_elem_of in Hb as (pair & Hp & Hb). eauto.
Qed.

(** C6. The trainer never raises; in both tables every row sums to 1 in
    rational arithmetic and every stored probability lies in (0, 1]; an
    emission row exists only for a character found in a correct word at an
    aligned position, a transition row only for a character found in a
    padded correct word before another character. *)
Theorem trainer_tables_stochastic (pairs : list (str * str)) :
  ∃ emission_probs transition_probs,
    compute_emissions pairs = Ok emission_probs
    ∧ compute_transitions pairs = Ok transition_probs
    ∧ stochastic emission_probs
    ∧ stochastic transition_probs
    ∧ (∀ c, is_Some (emission_probs !! c) →
        ∃ pair t, pair ∈ pairs ∧ (c, t) ∈ aligned pair)
    ∧ (∀ a, is_Some (transition_probs !! a) →
        ∃ pair b, pair ∈ pairs ∧ (a, b) ∈ adjacent pair).
Proof.
  destruct (count_emissions_counted pairs) as (de & Hde & Hce).
  destruct (count_transitions_counted pairs) as (dt & Hdt & Hct).
  destruct (normalize_counted _ _ _ Hce) as (E & HE & -> & _).
  destruct (normalize_counted _ _ _ Hct) as (T & HT & -> & _).
  exists (normalize_row <$> de), (normalize_row <$> dt).
  unfold compute_emissions, compute_transitions. rewrite Hde, Hdt. simpl.
  split; [done|]. split; [done|].
  split; [by eapply normalize_stochastic|].
  split; [by eapply normalize_stochastic|].
  split; intros c; by apply normalize_rows_observed.
Qed.

(** ** Decoder *)

Lemma letters_cons : letters = "a"%char :: lit "bcdefghijklmnopqrstuvwxyz".
Proof. reflexivity. Qed.

#[local] Opaque letters.

Lemma foldl_cons {X Y} (g : X → Y → X) (x : X) (y : Y) (l : list Y) :
  foldl g x (y :: l) = foldl g (g x y) l.
Proof. reflexivity. Qed.

Section running_max.
Context {A : LogArith} {L : LogArithLaws A}.
Variable f : ascii → score.

Lemma pick_fst st l : (foldl (pick f) st l).1 = foldl fmax st.1 (f <$> l).
Proof.
  revert st. induction l as [|x l IH]; intros st; [done|].
  rewrite fmap_cons. cbn [foldl]. rewrite IH. f_equal.
  unfold pick, fmax. by destruct (fgt (f x) st.1).
Qed.

(** Started on [c], the loop stops on the first element that no element
    exceeds. *)
Lemma pick_first_maximal c l :
  ∃ a l1 l2,
    foldl (pick f) (f c, Some c) l = (f a, Some a)
    ∧ c :: l = l1 ++ a :: l2
    ∧ (∀ y, y ∈ l1 → fgt (f a) (f y) = true)
    ∧ (∀ y, y ∈ l2 → fgt (f y) (f a) = false).
Proof.
  induction l as [|x l IH] using rev_ind.
  - exists c, [], []. repeat split; intros y Hy; by apply elem_of_nil in Hy.
  - destruct IH as (a & l1 & l2 & Hr & Hsplit & Hlt & Hge).
    rewrite foldl_snoc, Hr. unfold pick. cbn [fst].
    destruct (fgt (f x) (f a)) eqn:Hx.
    + exists x, (c :: l), []. split; [done|]. split; [done|]. split.
      * intros y Hy. rewrite Hsplit in Hy.
        apply elem_of_app in Hy as [Hy|[->|Hy]%elem_of_cons].
        -- eapply fgt_trans; [exact Hx|by apply Hlt].
        -- done.
        -- destruct (fgt_cotrans _ (f y) _ Hx) as [?|Hc]; [done|].
           by rewrite Hge in Hc.
      * intros y Hy. by apply elem_of_nil in Hy.
    + exists a, l1, (l2 ++ [x]). split; [done|]. split.
      * rewrite app_comm_cons, Hsplit. by rewrite <- app_assoc.
      * split; [done|]. intros y [Hy|Hy%list_elem_of_singleton]%elem_of_app.
        -- by apply Hge.
        -- by subst y.
Qed.

Lemma find_first_maximal a l1 l2 :
  (∀ y, y ∈ l1 → fgt (f a) (f y) = true) →
  List.find (λ s, negb (fgt (f a) (f s))) (l1 ++ a :: l2) = Some a.
Proof.
  intros Hlt. induction l1 as [|y l1 IH]; simpl.
  - by rewrite fgt_irrefl.
  - rewrite Hlt by left. simpl. apply IH. intros; apply Hlt. by right.
Qed.

Lemma first_maximal_list x rest :
  ∃ a, a ∈ x :: rest
       ∧ foldl (pick f) (f x, Some x) rest = (f a, Some a)
       ∧ foldl fmax (f x) (f <$> rest) = f a
       ∧ List.find (λ s, negb (fgt (f a) (f s))) (x :: rest) = Some a.
Proof.
  destruct (pick_first_maximal x rest) as (a & l1 & l2 & Hr & Hsplit & Hlt & _).
  pose proof (pick_fst (f x, Some x) rest) as Hfst.
  rewrite Hr in Hfst. cbn [fst] in Hfst.
  exists a. split; [|split; [done|split; [done|]]].
  - rewrite Hsplit. apply elem_of_app. right. by left.
  - rewrite Hsplit. by apply find_first_maximal.
Qed.

Lemma pick_start x :
  fgt (f x) neg_inf = true → pick f (neg_inf, None) x = (f x, Some x).
Proof. intros Hx. unfold pick. cbn [fst]. by rewrite Hx. Qed.

Lemma max_over_attained :
  ∃ a, a ∈ letters ∧ max_over f = f a ∧ first_argmax f = a.
Proof.
  unfold first_argmax, max_over. rewrite letters_cons. cbv beta iota.
  generalize (lit "bcdefghijklmnopqrstuvwxyz"). intros rest.
  destruct (first_maximal_list "a"%char rest) as (a & Ha & _ & Hmax & Hfind).
  exists a. rewrite Hmax, Hfind. done.
Qed.

(** From [(-inf, None)] and over scores that are all above [-inf], the
    loop computes the maximum over the alphabet and the first letter
    attaining it. *)
Lemma running_max :
  (∀ s, s ∈ letters → fgt (f s) neg_inf = true) →
  foldl (pick f) (neg_inf, None) letters = (max_over f, Some (first_argmax f)).
Proof.
  intros Hfin. unfold first_argmax, max_over.
  assert (fgt (f "a"%char) neg_inf = true) as Ha
    by (apply Hfin; rewrite letters_cons; by left).
  clear Hfin. rewrite letters_cons. cbv beta iota.
  generalize (lit "bcdefghijklmnopqrstuvwxyz"). intros rest.
  rewrite foldl_cons, (pick_start _ Ha).
  destruct (first_maximal_list "a"%char rest) as (a & _ & Hr & Hmax & Hfind).
  rewrite Hr, Hmax, Hfind. done.
Qed.

Lemma max_over_finite :
  (∀ s, s ∈ letters → fgt (f s) neg_inf = true) →
  fgt (max_over f) neg_inf = true.
Proof.
  intros Hfin. destruct max_over_attained as (a & Ha & -> & _). auto.
Qed.

Lemma first_argmax_letter : first_argmax f ∈ letters.
Proof. destruct max_over_attained as (a & Ha & _ & ->). done. Qed.
End running_max.

Lemma find_ext {X} (P Q : X → bool) (l : list X) :
  (∀ x, x ∈ l → P x = Q x) → List.find P l = List.find Q l.
Proof.
  induction l as [|x l IH]; intros HPQ; [done|]. cbn [List.find].
  rewrite HPQ by left. destruct (Q x); [done|].
  apply IH. intros; apply HPQ. by right.
Qed.

Lemma max_over_ext {A : LogArith} (f g : ascii → score) :
  (∀ s, s ∈ letters → f s = g s) → max_over f = max_over g.
Proof.
  intros Hfg. unfold max_over. rewrite letters_cons in *.
  rewrite Hfg by left. f_equal. apply list_fmap_ext. intros i x Hx.
  apply Hfg. right. by eapply list_elem_of_lookup_2.
Qed.

Lemma first_argmax_ext {A : LogArith} (f g : ascii → score) :
  (∀ s, s ∈ letters → f s = g s) → first_argmax f = first_argmax g.
Proof.
  intros Hfg. unfold first_argmax. rewrite (max_over_ext f g Hfg).
  rewrite (find_ext _ (λ s, negb (fgt (max_over g) (g s))) letters);
    [reflexivity|].
  intros s Hs. rewrite Hfg by exact Hs. reflexivity.
Qed.

(** *** Exact log-arithmetic satisfies the laws *)

#[export] Instance exact_arith_laws : LogArithLaws exact_arith.
Proof.
  split; simpl.
  - intros [|a b]; simpl; [done|]. apply Pos.ltb_irrefl.
  - intros [|a b] [|c d] [|e f]; simpl; try done.
    rewrite !Pos.ltb_lt. nia.
  - intros [|a b] [|c d] [|e f]; simpl; try done; auto.
    rewrite !Pos.ltb_lt. nia.
  - intros [n d] Hp. unfold xlog, Qlt in *. simpl in *.
    destruct n; simpl; done || lia.
  - intros [|a b] [|c d]; simpl; done.
Qed.

(** *** Loops guarded by state-independent checks *)

Lemma for_each_guarded {St St' X} (φ : St' → St) (ok : X → bool)
    (step : St' → X → St') e body (l : list X) (st : St') :
  (∀ st x, x ∈ l →
     body (φ st) x = if ok x then Ok (φ (step st x)) else Raise e) →
  for_each l (φ st) body
  = if forallb ok l then Ok (φ (foldl step st l)) else Raise e.
Proof.
  revert st. induction l as [|x l IH]; intros st Hbody; [done|].
  cbn [for_each forallb foldl]. rewrite Hbody by left.
  destruct (ok x); simpl; [|done].
  apply IH. intros; apply Hbody. by right.
Qed.

Lemma for_each_checked {St X} (ok : X → bool) (step : St → X → St) e body
    (l : list X) (st : St) :
  (∀ st x, x ∈ l → body st x = if ok x then Ok (step st x) else Raise e) →
  for_each l st body = if forallb ok l then Ok (foldl step st l) else Raise e.
Proof. apply (for_each_guarded id). Qed.

Lemma forallb_elem_of {X} (ok : X → bool) (l : list X) x :
  forallb ok l = true → x ∈ l → ok x = true.
Proof.
  rewrite forallb_forall. intros Hall Hx. by apply Hall, list_elem_of_In.
Qed.

(** *** Dict rows filled letter by letter *)

Lemma lookup_fill {X} (g : ascii → X) m l k :
  fill g m l !! k = if decide (k ∈ l) then Some (g k) else m !! k.
Proof.
  unfold fill. revert m. induction l as [|s l IH]; intros m.
  - rewrite decide_False; [done|apply not_elem_of_nil].
  - cbn [foldl]. rewrite IH. destruct (decide (k ∈ l)) as [Hin|Hnot].
    + rewrite decide_True; [done|by right].
    + destruct (decide (k = s)) as [->|Hne].
      * rewrite lookup_insert_eq. rewrite decide_True; [done|by left].
      * rewrite lookup_insert_ne by done. rewrite decide_False; [done|].
        intros [?|?]%elem_of_cons; done.
Qed.

Lemma lookup_row_of {X} (g : ascii → X) s :
  s ∈ letters → row_of g !! s = Some (g s).
Proof. intros Hs. unfold row_of. rewrite lookup_fill. by rewrite decide_True. Qed.

Lemma row_of_values {X} (g : ascii → X) s x :
  row_of g !! s = Some x → s ∈ letters ∧ x = g s.
Proof.
  unfold row_of. rewrite lookup_fill. case_decide; [|by rewrite lookup_empty].
  by intros [= <-].
Qed.

Lemma fill_pair {X Y} (g : ascii → X) (h : ascii → Y) m1 m2 l :
  foldl (λ (st : gmap ascii X * gmap ascii Y) s,
           (<[s := g s]> st.1, <[s := h s]> st.2)) (m1, m2) l
  = (fill g m1 l, fill h m2 l).
Proof.
  unfold fill. revert m1 m2. induction l as [|s l IH]; intros m1 m2; [done|].
  cbn [foldl fst snd]. apply IH.
Qed.

(** *** The decoder, loop by loop *)

Lemma math_log_positive {A : LogArith} p :
  math_log p = if is_positive p then Ok (flog p) else Raise ValueError.
Proof.
  unfold math_log, is_positive.
  destruct (decide (0 < p)%Q) as [Hp|Hp].
  - by rewrite bool_decide_eq_true_2.
  - by rewrite bool_decide_eq_false_2.
Qed.

Lemma py_get_cell (tbl : table) a b :
  py_get (py_get tbl a ∅) b FLOOR = default FLOOR (cell tbl a b).
Proof.
  unfold py_get, cell. destruct (tbl !! a); simpl; [done|].
  by rewrite lookup_empty.
Qed.

Section viterbi_props.
Context {A : LogArith} {L : LogArithLaws A}.
Variable typed : str.
Variables T E : table.

Local Abbreviation bs := (best_score typed T E).
Local Abbreviation bp := (best_path typed T E).
Local Abbreviation obs := (observed typed).

Lemma py_index_observed t :
  (t < length typed)%nat → py_index typed t = Ok (obs t).
Proof.
  intros Ht. unfold py_index, observed. rewrite nth_lookup.
  destruct (lookup_lt_is_Some_2 typed t Ht) as [c ->]. done.
Qed.

Lemma positive_flog p : is_positive p = true → fgt (flog p) neg_inf = true.
Proof.
  unfold is_positive. intros Hp%bool_decide_eq_true. by apply flog_finite.
Qed.

(** Lines 115-119. *)
Lemma init_step_char row path s :
  (0 < length typed)%nat →
  init_step typed T E ([row], path) s
  = if guard_init typed T E s
    then Ok ([<[s := bs 0 s]> row], <[s := bp 0 s]> path)
    else Raise ValueError.
Proof.
  intros Hlen. unfold init_step, guard_init.
  rewrite (py_index_observed 0 Hlen). cbn [mbind result_bind].
  rewrite !py_get_cell, !math_log_positive.
  fold (P_trans T "^"%char s). fold (P_emit E s (obs 0)).
  destruct (is_positive (P_trans T "^"%char s)); [|done].
  destruct (is_positive (P_emit E s (obs 0))); done.
Qed.

Lemma init_loop :
  (0 < length typed)%nat →
  for_each letters ([∅], ∅) (init_step typed T E)
  = if forallb (guard_init typed T E) letters
    then Ok (trellis_upto typed T E 0, paths_at typed T E 0)
    else Raise ValueError.
Proof.
  intros Hlen.
  pose proof (for_each_guarded
             (λ st : gmap ascii score * gmap ascii str, ([st.1], st.2))
             (guard_init typed T E)
             (λ st s, (<[s := bs 0 s]> st.1, <[s := bp 0 s]> st.2))
             ValueError (init_step typed T E) letters (∅, ∅)) as Hloop.
  cbn beta iota delta [fst snd] in Hloop. rewrite Hloop.
  - by rewrite fill_pair.
  - intros [row path] s _. by apply init_step_char.
Qed.

Lemma finite_init : forallb (guard_init typed T E) letters = true → finite_at typed T E 0.
Proof.
  intros Hg s Hs. pose proof (forallb_elem_of _ _ _ Hg Hs) as Hgs.
  unfold guard_init in Hgs. apply andb_true_iff in Hgs as [H1 H2].
  cbn [best_score]. apply fadd_finite; by apply positive_flog.
Qed.

(** Lines 128-136, against the filled previous row. *)
Lemma prev_step_char V k s st s0 :
  V !! k = Some (row_of (bs k)) →
  (S k < length typed)%nat →
  s0 ∈ letters →
  prev_step typed T E V (S k) s st s0
  = if guard_prev typed T E (S k) s s0
    then Ok (pick (extend typed T E (bs k) (S k) s) st s0)
    else Raise ValueError.
Proof.
  intros HV Hlen Hs0. destruct st as [max_prob prev_state].
  unfold prev_step, guard_prev.
  replace (S k - 1)%nat with k by lia.
  rewrite (py_index_lookup _ _ _ HV). cbn [mbind result_bind].
  rewrite (py_index_observed _ Hlen). cbn [mbind result_bind].
  rewrite !py_get_cell, !math_log_positive.
  fold (P_trans T s0 s). fold (P_emit E s (obs (S k))).
  destruct (is_positive (P_trans T s0 s)); [|done].
  destruct (is_positive (P_emit E s (obs (S k)))); [|done].
  cbn [mbind result_bind]. unfold pick, extend, py_get.
  rewrite (lookup_row_of _ _ Hs0). done.
Qed.

Lemma finite_extend k s s0 :
  finite_at typed T E k → s0 ∈ letters → guard_prev typed T E (S k) s s0 = true →
  fgt (extend typed T E (bs k) (S k) s s0) neg_inf = true.
Proof.
  intros Hfin Hs0 [H1 H2]%andb_true_iff. unfold extend.
  apply fadd_finite; [apply fadd_finite|]; auto using positive_flog.
Qed.

Lemma prev_loop V k s :
  V !! k = Some (row_of (bs k)) →
  (S k < length typed)%nat →
  finite_at typed T E k →
  for_each letters (neg_inf, None) (prev_step typed T E V (S k) s)
  = if forallb (guard_prev typed T E (S k) s) letters
    then Ok (bs (S k) s, Some (first_argmax (extend typed T E (bs k) (S k) s)))
    else Raise ValueError.
Proof.
  intros HV Hlen Hfin.
  rewrite (for_each_checked (guard_prev typed T E (S k) s)
             (pick (extend typed T E (bs k) (S k) s)) ValueError _ letters).
  - destruct (forallb (guard_prev typed T E (S k) s) letters) eqn:Hg; [|done].
    rewrite running_max; [done|].
    intros s0 Hs0. apply finite_extend; [done..|].
    by eapply forallb_elem_of.
  - intros st s0 Hs0. by apply prev_step_char.
Qed.

(** Lines 124-140. *)
Lemma state_step_char Vold k row newpath s :
  length Vold = S k →
  Vold !! k = Some (row_of (bs k)) →
  (S k < length typed)%nat →
  finite_at typed T E k →
  state_step typed T E (S k) (paths_at typed T E k) (Vold ++ [row], newpath) s
  = if forallb (guard_prev typed T E (S k) s) letters
    then Ok (Vold ++ [<[s := bs (S k) s]> row], <[s := bp (S k) s]> newpath)
    else Raise ValueError.
Proof.
  intros HlenV HV Hlen Hfin. unfold state_step.
  rewrite prev_loop; [|by rewrite lookup_app_l by lia|done..].
  destruct (forallb (guard_prev typed T E (S k) s) letters); [|done].
  cbn [mbind result_bind].
  assert ((Vold ++ [row]) !! S k = Some row) as Hrow.
  { rewrite lookup_app_r by lia. by rewrite HlenV, Nat.sub_diag. }
  rewrite (py_index_lookup _ _ _ Hrow). cbn [mbind result_bind].
  unfold py_getitem, paths_at.
  rewrite lookup_row_of by apply first_argmax_letter.
  cbn [mbind result_bind]. f_equal. f_equal.
  rewrite insert_app_r_alt by lia. by rewrite HlenV, Nat.sub_diag.
Qed.

(** Lines 121-142. *)
Lemma time_step_char k :
  (S k < length typed)%nat →
  finite_at typed T E k →
  time_step typed T E (trellis_upto typed T E k, paths_at typed T E k) (S k)
  = if guard_time typed T E (S k)
    then Ok (trellis_upto typed T E (S k), paths_at typed T E (S k))
    else Raise ValueError.
Proof.
  intros Hlen Hfin. unfold time_step.
  assert (length (trellis_upto typed T E k) = S k) as HlenV
    by (unfold trellis_upto; by rewrite length_fmap, length_seq).
  assert (trellis_upto typed T E k !! k = Some (row_of (bs k))) as HV.
  { unfold trellis_upto. rewrite list_lookup_fmap.
    rewrite lookup_seq_lt by lia. done. }
  pose proof (for_each_guarded
             (λ st : gmap ascii score * gmap ascii str,
                (trellis_upto typed T E k ++ [st.1], st.2))
             (λ s, forallb (guard_prev typed T E (S k) s) letters)
             (λ st s, (<[s := bs (S k) s]> st.1, <[s := bp (S k) s]> st.2))
             ValueError (state_step typed T E (S k) (paths_at typed T E k))
             letters (∅, ∅)) as Hloop.
  cbn beta iota delta [fst snd] in Hloop. rewrite Hloop.
  - unfold guard_time. rewrite fill_pair. cbn [fst snd].
    unfold trellis_upto at 2. rewrite (seq_S (S k)), fmap_app. done.
  - intros [row np] s _. by apply state_step_char.
Qed.

Lemma finite_step k :
  finite_at typed T E k → guard_time typed T E (S k) = true → finite_at typed T E (S k).
Proof.
  intros Hfin Hg s Hs. cbn [best_score]. apply max_over_finite.
  intros s0 Hs0. apply finite_extend; [done..|].
  unfold guard_time in Hg.
  pose proof (forallb_elem_of _ _ _ Hg Hs) as Hgs. cbv beta in Hgs.
  by eapply forallb_elem_of.
Qed.

Lemma time_loop m k :
  (k + m < length typed)%nat →
  finite_at typed T E k →
  for_each (seq (S k) m) (trellis_upto typed T E k, paths_at typed T E k) (time_step typed T E)
  = if forallb (guard_time typed T E) (seq (S k) m)
    then Ok (trellis_upto typed T E (k + m), paths_at typed T E (k + m))
    else Raise ValueError.
Proof.
  revert k. induction m as [|m IH]; intros k Hlen Hfin.
  - by rewrite Nat.add_0_r.
  - cbn [seq for_each forallb]. rewrite time_step_char by (done || lia).
    destruct (guard_time typed T E (S k)) eqn:Hg; [|done].
    cbn [mbind result_bind andb]. rewrite IH; [|lia|by apply finite_step].
    by replace (S k + m)%nat with (k + S m)%nat by lia.
Qed.

Lemma finite_loop m k :
  finite_at typed T E k → forallb (guard_time typed T E) (seq (S k) m) = true →
  ∀ j, (k ≤ j ≤ k + m)%nat → finite_at typed T E j.
Proof.
  revert k. induction m as [|m IH]; intros k Hfin Hg j Hj.
  - by replace j with k by lia.
  - cbn [seq forallb] in Hg. apply andb_true_iff in Hg as [Hg1 Hg2].
    destruct (decide (j = k)) as [->|Hne]; [done|].
    apply (IH (S k)); [by apply finite_step|done|lia].
Qed.

(** Lines 112-142: the run raises [ValueError] or fills the trellis with
    the scores and paths of the specification. *)
Lemma viterbi_trellis_char :
  typed ≠ [] →
  viterbi_trellis typed T E
  = if guard_trellis typed T E
    then Ok (trellis_upto typed T E (length typed - 1), paths_at typed T E (length typed - 1))
    else Raise ValueError.
Proof.
  intros Hne. assert (0 < length typed)%nat as Hlen
    by (destruct typed; [done|simpl; lia]).
  unfold viterbi_trellis, guard_trellis, range_from.
  rewrite init_loop by done.
  destruct (forallb (guard_init typed T E) letters) eqn:Hg0; [|done].
  cbn [mbind result_bind andb].
  rewrite time_loop; [done|lia|by apply finite_init].
Qed.

Lemma finite_trellis :
  typed ≠ [] → guard_trellis typed T E = true →
  ∀ j, (j ≤ length typed - 1)%nat → finite_at typed T E j.
Proof.
  intros Hne [Hg0 Hg]%andb_true_iff j Hj.
  apply (finite_loop (length typed - 1) 0);
    [by apply finite_init|done|lia].
Qed.
End viterbi_props.

Section viterbi_output.
Context {A : LogArith} {L : LogArithLaws A}.
Variable typed : str.
Variables T E : table.

Local Abbreviation bs := (best_score typed T E).
Local Abbreviation bp := (best_path typed T E).
Local Abbreviation last := (length typed - 1)%nat.
Local Abbreviation fin := (final_score typed T E).

(** Lines 146-152, against the filled last row. *)
Lemma final_step_char V st s :
  V !! last = Some (row_of (bs last)) →
  s ∈ letters →
  final_step typed T V st s
  = if guard_final T s then Ok (pick fin st s) else Raise ValueError.
Proof.
  intros HV Hs. destruct st as [max_prob best_state].
  unfold final_step, guard_final.
  rewrite (py_index_lookup _ _ _ HV). cbn [mbind result_bind].
  rewrite py_get_cell, math_log_positive. fold (P_trans T s "$"%char).
  destruct (is_positive (P_trans T s "$"%char)); [|done].
  cbn [mbind result_bind]. unfold pick, final_score, py_get.
  by rewrite (lookup_row_of _ _ Hs).
Qed.

Lemma trellis_upto_last :
  trellis_upto typed T E last !! last = Some (row_of (bs last)).
Proof.
  unfold trellis_upto. rewrite list_lookup_fmap.
  by rewrite lookup_seq_lt by lia.
Qed.

Lemma viterbi_select_char :
  finite_at typed T E last →
  viterbi_select typed T (trellis_upto typed T E last)
  = if forallb (guard_final T) letters
    then Ok (max_over fin, Some (first_argmax fin))
    else Raise ValueError.
Proof.
  intros Hfin. unfold viterbi_select.
  rewrite (for_each_checked (guard_final T) (pick fin) ValueError _ letters).
  - destruct (forallb (guard_final T) letters) eqn:Hg; [|done].
    rewrite running_max; [done|]. intros s Hs. unfold final_score.
    apply fadd_finite; [by apply Hfin|]. apply positive_flog.
    apply (forallb_elem_of _ _ _ Hg Hs).
  - intros st s Hs. apply final_step_char; [apply trellis_upto_last|done].
Qed.

(** The decoder on a non-empty word: a [ValueError] when some argument of
    [math.log] is not positive, and otherwise the sequence the dynamic
    program of the specification prescribes. *)
Lemma viterbi_char :
  typed ≠ [] →
  viterbi typed T E
  = if guard_run typed T E then Ok (spec_decode typed T E) else Raise ValueError.
Proof.
  intros Hne. unfold viterbi, guard_run.
  rewrite viterbi_trellis_char by done.
  destruct (guard_trellis typed T E) eqn:Hg; [|done].
  cbn [mbind result_bind andb].
  rewrite viterbi_select_char by (by apply finite_trellis).
  destruct (forallb (guard_final T) letters); [|done].
  cbn [mbind result_bind]. unfold viterbi_output, py_getitem, paths_at.
  by rewrite lookup_row_of by apply first_argmax_letter.
Qed.

Lemma positive_P_trans a b : positive_table T → is_positive (P_trans T a b) = true.
Proof.
  intros HT. unfold P_trans, is_positive. apply bool_decide_eq_true.
  destruct (cell T a b) as [p|] eqn:Hp; simpl; [by eapply HT|done].
Qed.

Lemma positive_P_emit s o : positive_table E → is_positive (P_emit E s o) = true.
Proof.
  intros HE. unfold P_emit, is_positive. apply bool_decide_eq_true.
  destruct (cell E s o) as [p|] eqn:Hp; simpl; [by eapply HE|done].
Qed.

Lemma guard_run_positive :
  positive_table T → positive_table E → guard_run typed T E = true.
Proof.
  intros HT HE. unfold guard_run, guard_trellis, guard_time.
  rewrite !andb_true_iff, !forallb_forall. repeat split.
  - intros s _. unfold guard_init.
    by rewrite positive_P_trans, positive_P_emit.
  - intros t _. rewrite forallb_forall. intros s _.
    rewrite forallb_forall. intros s0 _. unfold guard_prev.
    by rewrite positive_P_trans, positive_P_emit.
  - intros s _. by apply positive_P_trans.
Qed.

Lemma best_path_length t s : length (bp t s) = S t.
Proof.
  revert s. induction t as [|t IH]; intros s; [done|].
  cbn [best_path]. rewrite length_app, IH. simpl. lia.
Qed.

Lemma best_path_letters t s c : s ∈ letters → c ∈ bp t s → c ∈ letters.
Proof.
  revert s. induction t as [|t IH]; intros s Hs.
  - by intros ->%list_elem_of_singleton.
  - cbn [best_path]. intros [Hc| ->%list_elem_of_singleton]%elem_of_app.
    + eapply IH; [|done]. apply first_argmax_letter.
    + done.
Qed.
End viterbi_output.

(** C1. For a non-empty observed word and tables of positive
    probabilities, the decoder returns exactly the sequence of the
    specification's dynamic program: floored initial scores, the maximum
    over previous letters at every later position, the path of the letter
    maximising final score plus end transition, every tie won by the first
    letter in alphabetic order. *)
Theorem viterbi_refines_spec {A : LogArith} {L : LogArithLaws A}
    (typed : str) (transition_probs emission_probs : table) :
  typed ≠ [] →
  positive_table transition_probs →
  positive_table emission_probs →
  viterbi typed transition_probs emission_probs
  = Ok (spec_decode typed transition_probs emission_probs).
Proof.
  intros Hne HT HE. rewrite viterbi_char by done.
  by rewrite guard_run_positive.
Qed.

Lemma sample_transitions_positive : positive_table sample_transitions.
Proof.
  intros a b p. unfold cell, sample_transitions.
  destruct (decide (a = "^"%char)) as [->|H1];
    [|destruct (decide (a = "c"%char)) as [->|H2]].
  - rewrite lookup_insert_eq. simpl.
    intros [_ <-]%lookup_singleton_Some. reflexivity.
  - rewrite lookup_insert_ne, lookup_singleton_eq by done. simpl.
    intros [_ <-]%lookup_singleton_Some. reflexivity.
  - rewrite lookup_insert_ne, lookup_singleton_ne by done. done.
Qed.

Lemma sample_emissions_positive : positive_table sample_emissions.
Proof.
  intros a b p. unfold cell, sample_emissions.
  destruct (decide (a = "c"%char)) as [->|H1].
  - rewrite lookup_singleton_eq. simpl.
    intros [[_ <-]|[_ [_ <-]%lookup_singleton_Some]]%lookup_insert_Some;
      reflexivity.
  - rewrite lookup_singleton_ne by done. done.
Qed.

Lemma viterbi_refines_spec_witness :
  lit "ka" ≠ []
  ∧ positive_table sample_transitions
  ∧ positive_table sample_emissions
  ∧ viterbi (A := exact_arith) (lit "ka") sample_transitions sample_emissions
    = Ok (spec_decode (lit "ka") sample_transitions sample_emissions).
Proof.
  assert (lit "ka" ≠ []) as Hne by discriminate.
  split; [exact Hne|].
  split; [exact sample_transitions_positive|].
  split; [exact sample_emissions_positive|].
  exact (viterbi_refines_spec (L := exact_arith_laws) (lit "ka")
           sample_transitions sample_emissions Hne
           sample_transitions_positive sample_emissions_positive).
Defined.

Example sample_decode :
  viterbi (A := exact_arith) (lit "ka") sample_transitions sample_emissions
  = Ok (lit "ca").
Proof. vm_compute. reflexivity. Qed.

(** X7. On a non-empty word and tables of positive probabilities the
    decoder returns a string of the length of its input over the 26
    lowercase letters. *)
Lemma viterbi_output_shape {A : LogArith} {L : LogArithLaws A}
    (typed : str) (transition_probs emission_probs : table) :
  typed ≠ [] →
  positive_table transition_probs →
  positive_table emission_probs →
  ∃ out,
    viterbi typed transition_probs emission_probs = Ok out
    ∧ length out = length typed
    ∧ ∀ c, c ∈ out → c ∈ letters.
Proof.
  intros Hne HT HE. exists (spec_decode typed transition_probs emission_probs).
  split; [rewrite viterbi_char by done; by rewrite guard_run_positive|].
  unfold spec_decode. split.
  - rewrite best_path_length. destruct typed; [done|simpl; lia].
  - intros c. apply best_path_letters, first_argmax_letter.
Qed.

(** C3, as the code has it. The decoder has no guard for the zero-length
    word: line 117 subscripts [typed[0]] during the first iteration of the
    first loop, and the decoder raises [IndexError] whatever the tables. *)
Theorem viterbi_empty_word_raises {A : LogArith}
    (transition_probs emission_probs : table) :
  viterbi [] transition_probs emission_probs = Raise IndexError.
Proof.
  assert (init_step [] transition_probs emission_probs ([∅], ∅) "a"%char
          = Raise IndexError) as Hfirst by reflexivity.
  unfold viterbi, viterbi_trellis. rewrite letters_cons.
  cbn [for_each]. by rewrite Hfirst.
Qed.

(** At the zero-length word the decoder returns no string at all, so none
    of the length of its input. *)
Theorem viterbi_empty_word_no_output {A : LogArith}
    (transition_probs emission_probs : table) :
  ¬ ∃ out, viterbi [] transition_probs emission_probs = Ok out
           ∧ length out = length (@nil ascii).
Proof. intros (out & Hout & _). discriminate Hout. Qed.

(** C9. On a non-empty observed word: with tables of positive
    probabilities the trellis is filled and a best state is selected; and
    for any tables, every score of a filled trellis is above [-inf] and a
    completed selection has chosen a best state, so line 155 is never
    reached. *)
Theorem viterbi_scores_finite {A : LogArith} {L : LogArithLaws A}
    (typed : str) (transition_probs emission_probs : table) :
  typed ≠ [] →
  (positive_table transition_probs → positive_table emission_probs →
   ∃ V path max_prob best_state,
     viterbi_trellis typed transition_probs emission_probs = Ok (V, path)
     ∧ viterbi_select typed transition_probs V
       = Ok (max_prob, Some best_state))
  ∧ (∀ V path,
       viterbi_trellis typed transition_probs emission_probs = Ok (V, path) →
       length V = length typed
       ∧ (∀ t row s x, V !! t = Some row → row !! s = Some x →
            fgt x neg_inf = true)
       ∧ (∀ max_prob best_state,
            viterbi_select typed transition_probs V
            = Ok (max_prob, best_state) →
            best_state ≠ None)).
Proof.
  intros Hne.
  assert (0 < length typed)%nat as Hlen by (destruct typed; [done|simpl; lia]).
  rewrite viterbi_trellis_char by done. split.
  - intros HT HE. pose proof (guard_run_positive typed _ _ HT HE) as Hg.
    unfold guard_run in Hg. apply andb_true_iff in Hg as [Hg Hf].
    rewrite Hg. do 4 eexists. split; [done|].
    rewrite viterbi_select_char by (by apply finite_trellis).
    by rewrite Hf.
  - intros V path.
    destruct (guard_trellis typed transition_probs emission_probs) eqn:Hg;
      [|done].
    intros [= <- <-]. split; [|split].
    + unfold trellis_upto. rewrite length_fmap, length_seq. lia.
    + intros t row s x Hrow Hx. unfold trellis_upto in Hrow.
      apply list_lookup_fmap_Some_1 in Hrow as (j & -> & Hj).
      apply lookup_seq in Hj as [-> Hj].
      apply row_of_values in Hx as [Hs ->].
      apply (finite_trellis typed _ _ Hne Hg); [lia|done].
    + intros m b. rewrite viterbi_select_char by (by apply finite_trellis).
      destruct (forallb _ letters); [|done]. by intros [= _ <-].
Qed.

Lemma viterbi_scores_finite_witness :
  lit "ka" ≠ []
  ∧ (∀ V path,
       viterbi_trellis (A := exact_arith) (lit "ka")
         sample_transitions sample_emissions = Ok (V, path) →
       length V = length (lit "ka")
       ∧ (∀ t row s x, V !! t = Some row → row !! s = Some x →
            fgt x neg_inf = true)
       ∧ (∀ max_prob best_state,
            viterbi_select (lit "ka") sample_transitions V
            = Ok (max_prob, best_state) →
            best_state ≠ None)).
Proof.
  assert (lit "ka" ≠ []) as Hne by discriminate.
  split; [exact Hne|].
  exact (proj2 (viterbi_scores_finite (L := exact_arith_laws) (lit "ka")
                  sample_transitions sample_emissions Hne)).
Defined.

(** * Further properties *)

(** ** Vocabulary snapper *)

Lemma closest_known_word_cases (candidate : str) (vocabulary : list str) :
  ((candidate ∈ vocabulary)
   ∧ closest_known_word candidate vocabulary = Ok candidate)
  ∨ ((candidate ∉ vocabulary)
     ∧ ∃ out, closest_known_word candidate vocabulary = Ok out
              ∧ (out = candidate ∨ out ∈ vocabulary)
              ∧ (within_sentinel candidate vocabulary → out ∈ vocabulary)).
Proof.
  destruct (decide (candidate ∈ vocabulary)) as [Hin|Hnot].
  - left. split; [done|]. unfold closest_known_word. by rewrite decide_True.
  - right. split; [done|]. eexists.
    split; [by apply closest_known_word_scan|].
    destruct (scan_result candidate vocabulary candidate BEST_SCORE_INIT)
      as [Hmin Hbest].
    rewrite within_sentinel_min, <- Hmin.
    case_decide; [apply find_elem_of in Hbest; auto|].
    split; [by left|]. intros ?. lia.
Qed.

(** X1. The snapper never raises, and what it returns is the candidate
    itself or a word of the vocabulary. *)
Theorem closest_known_word_total (candidate : str) (vocabulary : list str) :
  ∃ out, closest_known_word candidate vocabulary = Ok out
         ∧ (out = candidate ∨ out ∈ vocabulary).
Proof.
  destruct (closest_known_word_cases candidate vocabulary)
    as [[Hin Hout]|[_ (out & Hout & Hcase & _)]]; [|by exists out].
  exists candidate. auto.
Qed.

(** X2. Snapping is idempotent: a returned word snaps to itself. *)
Theorem closest_known_word_idempotent (candidate out : str)
    (vocabulary : list str) :
  closest_known_word candidate vocabulary = Ok out →
  closest_known_word out vocabulary = Ok out.
Proof.
  intros Hout.
  destruct (closest_known_word_cases candidate vocabulary)
    as [[Hin Hc]|[Hnot (out' & Hc & Hcase & _)]];
    rewrite Hc in Hout; injection Hout as <-; [done|].
  destruct Hcase as [->|Hin]; [done|].
  unfold closest_known_word. by rewrite decide_True.
Qed.

Lemma closest_known_word_idempotent_witness :
  closest_known_word (lit "cet") [lit "cat"; lit "cot"] = Ok (lit "cat")
  ∧ closest_known_word (lit "cat") [lit "cat"; lit "cot"] = Ok (lit "cat").
Proof.
  assert (closest_known_word (lit "cet") [lit "cat"; lit "cot"]
          = Ok (lit "cat")) as Hfirst by (vm_compute; reflexivity).
  split; [exact Hfirst|].
  exact (closest_known_word_idempotent _ _ _ Hfirst).
Defined.

Lemma filter_none {X} (P : X → Prop) `{∀ x, Decision (P x)} (l : list X) :
  (∀ x, x ∈ l → ¬ P x) → filter P l = [].
Proof.
  induction l as [|x l IH]; intros Hno; [done|].
  rewrite filter_cons, decide_False by (apply Hno; by left).
  apply IH. intros y Hy. apply Hno. by right.
Qed.

Lemma spec_distance_sym (word candidate : str) :
  spec_distance word candidate = spec_distance candidate word.
Proof.
  unfold spec_distance. rewrite (Nat.min_comm (length candidate)).
  rewrite (list_filter_iff (λ i, candidate !! i ≠ word !! i)
             (λ i, word !! i ≠ candidate !! i))
    by (intros i; split; intros Hne Heq; by apply Hne).
  lia.
Qed.

Lemma spec_distance_zero (word candidate : str) :
  spec_distance word candidate = 0 ↔ word = candidate.
Proof.
  unfold spec_distance. split.
  - intros Hzero.
    assert (length word = length candidate) as Hlen by lia.
    assert (length (filter (λ i, word !! i ≠ candidate !! i)
                      (seq 0 (Nat.min (length word) (length candidate))))
            = 0%nat) as Hfilter by lia.
    apply list_eq. intros i.
    destruct (decide (i < length word)%nat) as [Hi|Hi].
    + destruct (decide (word !! i = candidate !! i)) as [|Hne]; [done|].
      exfalso. apply nil_length_inv in Hfilter.
      apply (filter_nil_not_elem_of _ _ i Hfilter Hne).
      apply elem_of_seq. lia.
    + rewrite !lookup_ge_None_2 by lia. done.
  - intros ->. rewrite Z.sub_diag, Nat.min_id.
    rewrite filter_none; [done|]. intros i _ Hne. by apply Hne.
Qed.

(** X3. The score of lines 177-181 is symmetric in its two strings, and it
    is 0 exactly when they are equal. *)
Theorem word_dist_symmetric_zero (word candidate : str) :
  word_dist word candidate = word_dist candidate word
  ∧ (word_dist word candidate = Ok 0 ↔ word = candidate).
Proof.
  rewrite !word_dist_spec. split.
  - by rewrite spec_distance_sym.
  - rewrite <- spec_distance_zero. split; [by intros [= ->]|by intros ->].
Qed.

(** ** Model trainer *)

Lemma counted_unique d d' evs evs' :
  counted d evs → counted d' evs' →
  (∀ x, occurrences x evs = occurrences x evs') →
  d = d'.
Proof.
  intros [Hcell Hrows] [Hcell' Hrows'] Hocc.
  assert (∀ a b, cell d a b = cell d' a b) as Hsame
    by (intros a b; by rewrite Hcell, Hcell', Hocc).
  assert (∀ (d1 d2 : counts) evs1 a row,
            (∀ a b, cell d1 a b = cell d2 a b) →
            (∀ a, is_Some (d1 !! a) → ∃ b, (a, b) ∈ evs1) →
            (∀ a b, cell d1 a b
                    = if decide (occurrences (a, b) evs1 = 0) then None
                      else Some (occurrences (a, b) evs1)) →
            d1 !! a = Some row → is_Some (d2 !! a)) as Hrow.
  { intros d1 d2 evs1 a row Hc Hr Hcl Hd1.
    destruct (Hr a) as [b Hb]; [by rewrite Hd1|].
    apply occurrences_pos in Hb.
    specialize (Hcl a b). rewrite decide_False in Hcl by lia.
    rewrite Hc in Hcl. unfold cell in Hcl.
    destruct (d2 !! a); [done|discriminate]. }
  apply map_eq. intros a.
  destruct (d !! a) as [row|] eqn:Hd, (d' !! a) as [row'|] eqn:Hd'.
  - f_equal. apply map_eq. intros b. specialize (Hsame a b).
    unfold cell in Hsame. by rewrite Hd, Hd' in Hsame.
  - destruct (Hrow d d' evs a row Hsame Hrows Hcell Hd) as [? Hsome].
    by rewrite Hd' in Hsome.
  - destruct (Hrow d' d evs' a row' (λ a b, eq_sym (Hsame a b)) Hrows' Hcell' Hd')
      as [? Hsome].
    by rewrite Hd in Hsome.
  - done.
Qed.

Lemma spec_count_perm events pairs pairs' a b :
  pairs ≡ₚ pairs' → spec_count events pairs a b = spec_count events pairs' a b.
Proof.
  unfold spec_count. induction 1 as [|p l l' _ IH|p q l|l l' l'' _ IH1 _ IH2].
  - done.
  - rewrite !fmap_cons. cbn [foldr]. by rewrite IH.
  - rewrite !fmap_cons. cbn [foldr]. lia.
  - by rewrite IH1.
Qed.

Lemma normalize_positive d evs :
  counted d evs → positive_table (normalize_row <$> d).
Proof.
  intros Hd a b p. unfold cell.
  destruct ((normalize_row <$> d) !! a) as [row|] eqn:Hrow; [|done]. simpl.
  intros Hp.
  destruct (normalize_stochastic d evs Hd a row Hrow) as [_ Hvals].
  by destruct (Hvals b p Hp).
Qed.

(** The tables of the trainer hold positive probabilities only. *)
Lemma trained_tables_positive (pairs : list (str * str)) :
  ∃ emission_probs transition_probs,
    compute_emissions pairs = Ok emission_probs
    ∧ compute_transitions pairs = Ok transition_probs
    ∧ positive_table emission_probs
    ∧ positive_table transition_probs.
Proof.
  destruct (count_emissions_counted pairs) as (de & Hde & Hce).
  destruct (count_transitions_counted pairs) as (dt & Hdt & Hct).
  destruct (normalize_counted _ _ _ Hce) as (E & HE & -> & _).
  destruct (normalize_counted _ _ _ Hct) as (T & HT & -> & _).
  exists (normalize_row <$> de), (normalize_row <$> dt).
  unfold compute_emissions, compute_transitions. rewrite Hde, Hdt. simpl.
  repeat split; [done|done|by eapply normalize_positive..].
Qed.

(** X4. The tables do not depend on the order of the training pairs. *)
Theorem trainer_order_independent (pairs pairs' : list (str * str)) :
  pairs ≡ₚ pairs' →
  compute_emissions pairs = compute_emissions pairs'
  ∧ compute_transitions pairs = compute_transitions pairs'.
Proof.
  intros Hperm.
  destruct (count_emissions_counted pairs) as (de & Hde & Hce).
  destruct (count_emissions_counted pairs') as (de' & Hde' & Hce').
  destruct (count_transitions_counted pairs) as (dt & Hdt & Hct).
  destruct (count_transitions_counted pairs') as (dt' & Hdt' & Hct').
  unfold compute_emissions, compute_transitions.
  rewrite Hde, Hde', Hdt, Hdt'. simpl.
  rewrite (counted_unique de de' _ _ Hce Hce'),
          (counted_unique dt dt' _ _ Hct Hct'); [done|..];
    intros [a b]; rewrite <- !spec_count_occurrences;
    by apply spec_count_perm.
Qed.

Lemma trainer_order_independent_witness :
  [(lit "cat", lit "kat"); (lit "dog", lit "dg")]
  ≡ₚ [(lit "dog", lit "dg"); (lit "cat", lit "kat")]
  ∧ compute_emissions [(lit "cat", lit "kat"); (lit "dog", lit "dg")]
    = compute_emissions [(lit "dog", lit "dg"); (lit "cat", lit "kat")]
  ∧ compute_transitions [(lit "cat", lit "kat"); (lit "dog", lit "dg")]
    = compute_transitions [(lit "dog", lit "dg"); (lit "cat", lit "kat")].
Proof.
  assert ([(lit "cat", lit "kat"); (lit "dog", lit "dg")]
          ≡ₚ [(lit "dog", lit "dg"); (lit "cat", lit "kat")]) as Hperm
    by apply Permutation_swap.
  split; [exact Hperm|]. exact (trainer_order_independent _ _ Hperm).
Defined.

(** ** Decoder *)

Lemma forallb_true_iff {X} (ok : X → bool) (l : list X) :
  forallb ok l = true ↔ ∀ x, x ∈ l → ok x = true.
Proof.
  rewrite forallb_forall. split; intros Hall x Hx; apply Hall;
    by apply list_elem_of_In.
Qed.

Lemma is_positive_true p : is_positive p = true ↔ (0 < p)%Q.
Proof. unfold is_positive. apply bool_decide_eq_true. Qed.

Lemma guard_run_lookups {A : LogArith} typed T E :
  guard_run typed T E = true ↔ lookups_positive typed T E.
Proof.
  unfold guard_run, guard_trellis, lookups_positive.
  rewrite !andb_true_iff, !forallb_true_iff. split.
  - intros [[Hinit Htime] Hfinal]. split.
    + intros s Hs. specialize (Hinit s Hs). specialize (Hfinal s Hs).
      unfold guard_init in Hinit. unfold guard_final in Hfinal.
      apply andb_true_iff in Hinit as [H1 H2].
      by rewrite <- !is_positive_true.
    + intros t s s0 Ht Hs Hs0.
      assert (t ∈ seq 1 (length typed - 1)) as Hin by (apply elem_of_seq; lia).
      specialize (Htime t Hin). unfold guard_time in Htime.
      rewrite forallb_true_iff in Htime. specialize (Htime s Hs).
      rewrite forallb_true_iff in Htime. specialize (Htime s0 Hs0).
      unfold guard_prev in Htime. apply andb_true_iff in Htime as [H1 H2].
      by rewrite <- !is_positive_true.
  - intros [Hends Hmid]. split; [split|].
    + intros s Hs. destruct (Hends s Hs) as (H1 & H2 & _).
      unfold guard_init. apply andb_true_iff. by rewrite !is_positive_true.
    + intros t Ht%elem_of_seq. unfold guard_time.
      rewrite forallb_true_iff. intros s Hs.
      rewrite forallb_true_iff. intros s0 Hs0.
      destruct (Hmid t s s0) as [H1 H2]; [lia|done..|].
      unfold guard_prev. apply andb_true_iff. by rewrite !is_positive_true.
    + intros s Hs. destruct (Hends s Hs) as (_ & _ & H3).
      unfold guard_final. by rewrite is_positive_true.
Qed.

(** X5. On a non-empty word the decoder returns a string when every
    argument it passes to [math.log] is positive, and raises [ValueError]
    otherwise; it raises no other exception. *)
Theorem viterbi_value_error {A : LogArith} {L : LogArithLaws A}
    (typed : str) (transition_probs emission_probs : table) :
  typed ≠ [] →
  (lookups_positive typed transition_probs emission_probs →
   ∃ out, viterbi typed transition_probs emission_probs = Ok out)
  ∧ (¬ lookups_positive typed transition_probs emission_probs →
     viterbi typed transition_probs emission_probs = Raise ValueError).
Proof.
  intros Hne. rewrite viterbi_char by done. rewrite <- guard_run_lookups.
  destruct (guard_run typed transition_probs emission_probs).
  - split; [eauto|]. by intros [].
  - split; [done|]. done.
Qed.

Lemma viterbi_value_error_witness :
  lit "a" ≠ []
  ∧ ¬ lookups_positive (lit "a") zero_transitions ∅
  ∧ viterbi (A := exact_arith) (lit "a") zero_transitions ∅
    = Raise ValueError.
Proof.
  assert (lit "a" ≠ []) as Hne by discriminate.
  assert (¬ lookups_positive (lit "a") zero_transitions ∅) as Hbad.
  { intros [Hends _]. destruct (Hends "a"%char) as (H0 & _).
    - rewrite letters_cons. by left.
    - vm_compute in H0. discriminate H0. }
  split; [exact Hne|]. split; [exact Hbad|].
  exact (proj2 (viterbi_value_error (L := exact_arith_laws) (lit "a")
                  zero_transitions ∅ Hne) Hbad).
Defined.

Lemma viterbi_output_shape_witness :
  lit "ka" ≠ []
  ∧ positive_table sample_transitions
  ∧ positive_table sample_emissions
  ∧ ∃ out,
      viterbi (A := exact_arith) (lit "ka") sample_transitions sample_emissions
      = Ok out
      ∧ length out = length (lit "ka")
      ∧ ∀ c, c ∈ out → c ∈ letters.
Proof.
  assert (lit "ka" ≠ []) as Hne by discriminate.
  split; [exact Hne|].
  split; [exact sample_transitions_positive|].
  split; [exact sample_emissions_positive|].
  exact (viterbi_output_shape (L := exact_arith_laws) (lit "ka")
           sample_transitions sample_emissions Hne
           sample_transitions_positive sample_emissions_positive).
Defined.

(** *** The returned sequence maximises the joint score *)

#[export] Instance exact_arith_mono : LogArithMono exact_arith.
Proof.
  split. intros [|a b] [|c d] [|e f]; simpl; try done.
  rewrite !Pos.ltb_ge. nia.
Qed.

Section optimality.
Context {A : LogArith} {L : LogArithLaws A} {M : LogArithMono A}.
Variable typed : str.
Variables T E : table.

Local Abbreviation bs := (best_score typed T E).
Local Abbreviation bp := (best_path typed T E).
Local Abbreviation score_of := (path_score typed T E).

Lemma fgt_asym (x y : score) : fgt x y = true → fgt y x = false.
Proof.
  intros Hxy. destruct (fgt y x) eqn:Hyx; [|done].
  pose proof (fgt_trans _ _ _ Hxy Hyx) as Hxx.
  by rewrite fgt_irrefl in Hxx.
Qed.

Lemma fgt_false_trans (x y z : score) :
  fgt x y = false → fgt y z = false → fgt x z = false.
Proof.
  intros Hxy Hyz. destruct (fgt x z) eqn:Hxz; [|done].
  destruct (fgt_cotrans _ y _ Hxz) as [H1|H1]; congruence.
Qed.

(** No letter scores above the maximum over the alphabet. *)
Lemma max_over_upper (f : ascii → score) s :
  s ∈ letters → fgt (f s) (max_over f) = false.
Proof.
  unfold max_over. rewrite letters_cons. cbv beta iota.
  generalize (lit "bcdefghijklmnopqrstuvwxyz"). intros rest Hs.
  destruct (pick_first_maximal f "a"%char rest)
    as (a & l1 & l2 & Hr & Hsplit & Hlt & Hge).
  pose proof (pick_fst f (f "a"%char, Some "a"%char) rest) as Hfst.
  rewrite Hr in Hfst. cbn [fst] in Hfst. rewrite <- Hfst.
  rewrite Hsplit in Hs.
  apply elem_of_app in Hs as [Hs|[->|Hs]%elem_of_cons].
  - by apply fgt_asym, Hlt.
  - apply fgt_irrefl.
  - by apply Hge.
Qed.

Lemma path_score_cons s s0 r :
  score_of (s :: s0 :: r)
  = fadd (fadd (score_of (s0 :: r)) (flog (P_trans T s0 s)))
         (flog (P_emit E s (observed typed (S (length r))))).
Proof. reflexivity. Qed.

Lemma best_path_snoc t s : ∃ p, bp t s = p ++ [s] ∧ length p = t.
Proof.
  destruct t as [|t]; [by exists []|].
  cbn [best_path]. eexists. split; [done|]. apply best_path_length.
Qed.

Lemma rev_best_path t s : ∃ r, rev (bp t s) = s :: r ∧ length r = t.
Proof.
  destruct (best_path_snoc t s) as (p & -> & Hlen).
  exists (rev p). rewrite rev_unit. split; [done|]. by rewrite length_rev.
Qed.

(** The recorded path of a letter scores what the trellis holds for it. *)
Lemma path_score_best t s :
  s ∈ letters → score_of (rev (bp t s)) = bs t s.
Proof.
  revert s. induction t as [|t IH]; intros s Hs; [done|].
  cbn [best_path best_score]. rewrite rev_unit.
  set (f := extend typed T E (bs t) (S t) s).
  destruct (max_over_attained f) as (a & Ha & Hmax & Harg).
  rewrite Harg, Hmax. specialize (IH a Ha).
  destruct (rev_best_path t a) as (r & Hr & Hlen).
  rewrite Hr in *. rewrite path_score_cons, IH, Hlen. done.
Qed.

(** No sequence of letters ending in [s] scores above the trellis entry
    of [s]. *)
Lemma path_score_upper t s rpath :
  length rpath = t →
  (∀ c, c ∈ s :: rpath → c ∈ letters) →
  fgt (score_of (s :: rpath)) (bs t s) = false.
Proof.
  revert s rpath. induction t as [|t IH]; intros s rpath Hlen Hletters.
  - destruct rpath; [|done]. apply fgt_irrefl.
  - destruct rpath as [|s0 rpath]; [done|].
    rewrite path_score_cons. cbn [best_score]. cbn [length] in *.
    replace (S (length rpath)) with (S t) by lia.
    eapply fgt_false_trans; [|apply (max_over_upper _ s0)].
    + unfold extend. apply fadd_mono, fadd_mono. apply IH; [lia|].
      intros c Hc. apply Hletters. by right.
    + apply Hletters. right. by left.
Qed.

Lemma total_score_upper path :
  length path = length typed → typed ≠ [] →
  (∀ c, c ∈ path → c ∈ letters) →
  fgt (total_score typed T E path) (max_over (final_score typed T E)) = false.
Proof.
  intros Hlen Hne Hletters. unfold total_score.
  assert (0 < length typed)%nat by (destruct typed; [done|simpl; lia]).
  destruct (rev path) as [|s rpath] eqn:Hrev.
  { apply (f_equal length) in Hrev. rewrite length_rev in Hrev.
    simpl in Hrev. lia. }
  assert (∀ c, c ∈ s :: rpath → c ∈ letters) as Hl.
  { intros c Hc. apply Hletters. apply list_elem_of_In, in_rev.
    rewrite Hrev. by apply list_elem_of_In. }
  assert (length rpath = (length typed - 1)%nat) as Hlen'.
  { apply (f_equal length) in Hrev. rewrite length_rev in Hrev.
    simpl in Hrev. lia. }
  eapply fgt_false_trans; [|apply (max_over_upper _ s); apply Hl; by left].
  unfold final_score. apply fadd_mono. by apply path_score_upper.
Qed.

Lemma total_score_decoded :
  total_score typed T E (spec_decode typed T E)
  = max_over (final_score typed T E).
Proof.
  unfold total_score, spec_decode. cbv zeta.
  destruct (max_over_attained (final_score typed T E))
    as (a & Ha & Hmax & Harg).
  fold (final_score typed T E) in *. rewrite Harg, Hmax.
  pose proof (path_score_best (length typed - 1) a Ha) as Hbest.
  destruct (rev_best_path (length typed - 1) a) as (r & Hr & _).
  rewrite Hr in *. by rewrite Hbest.
Qed.
End optimality.

(** X6. On a non-empty word and tables of positive probabilities, no
    sequence of lowercase letters of the length of the word has a higher
    joint score (start, transitions, emissions, end) than the sequence the
    decoder returns. *)
Theorem viterbi_most_likely {A : LogArith} {L : LogArithLaws A}
    {M : LogArithMono A}
    (typed : str) (transition_probs emission_probs : table) :
  typed ≠ [] →
  positive_table transition_probs →
  positive_table emission_probs →
  ∃ out,
    viterbi typed transition_probs emission_probs = Ok out
    ∧ ∀ path,
        length path = length typed →
        (∀ c, c ∈ path → c ∈ letters) →
        fgt (total_score typed transition_probs emission_probs path)
            (total_score typed transition_probs emission_probs out)
        = false.
Proof.
  intros Hne HT HE. exists (spec_decode typed transition_probs emission_probs).
  split; [rewrite viterbi_char by done; by rewrite guard_run_positive|].
  intros path Hlen Hletters. rewrite total_score_decoded.
  by apply total_score_upper.
Qed.

Lemma viterbi_most_likely_witness :
  lit "ka" ≠ []
  ∧ positive_table sample_transitions
  ∧ positive_table sample_emissions
  ∧ ∃ out,
      viterbi (A := exact_arith) (lit "ka") sample_transitions sample_emissions
      = Ok out
      ∧ ∀ path,
          length path = length (lit "ka") →
          (∀ c, c ∈ path → c ∈ letters) →
          fgt (total_score (lit "ka") sample_transitions sample_emissions path)
              (total_score (lit "ka") sample_transitions sample_emissions out)
          = false.
Proof.
  assert (lit "ka" ≠ []) as Hne by discriminate.
  split; [exact Hne|].
  split; [exact sample_transitions_positive|].
  split; [exact sample_emissions_positive|].
  exact (viterbi_most_likely (L := exact_arith_laws) (M := exact_arith_mono)
           (lit "ka") sample_transitions sample_emissions Hne
           sample_transitions_positive sample_emissions_positive).
Defined.

(** *** Without training data *)

Lemma positive_table_empty : positive_table ∅.
Proof. intros a b p. unfold cell. by rewrite lookup_empty. Qed.

Lemma max_over_const {A : LogArith} (c : score) : max_over (λ _, c) = c.
Proof.
  unfold max_over. rewrite letters_cons. cbv beta iota.
  generalize (lit "bcdefghijklmnopqrstuvwxyz"). intros rest.
  induction rest as [|s rest IH]; [done|].
  rewrite fmap_cons, foldl_cons. unfold fmax at 2.
  by destruct (fgt c c).
Qed.

Lemma first_argmax_const {A : LogArith} {L : LogArithLaws A} (c : score) :
  first_argmax (λ _, c) = "a"%char.
Proof.
  unfold first_argmax. rewrite max_over_const, letters_cons.
  generalize (lit "bcdefghijklmnopqrstuvwxyz"). intros rest.
  cbn [List.find]. by rewrite fgt_irrefl.
Qed.

Section untrained.
Context {A : LogArith} {L : LogArithLaws A}.
Variable typed : str.

Local Abbreviation bs := (best_score typed ∅ ∅).
Local Abbreviation bp := (best_path typed ∅ ∅).

Lemma untrained_extend t s s0 :
  extend typed ∅ ∅ (bs t) (S t) s s0
  = fadd (fadd (bs t s0) (flog FLOOR)) (flog FLOOR).
Proof. unfold extend, P_trans, P_emit, cell. by rewrite !lookup_empty. Qed.

(** All letters score the same at every position. *)
Lemma untrained_score t s : bs t s = bs t "a"%char.
Proof.
  destruct t as [|t]; cbn [best_score].
  - unfold P_trans, P_emit, cell. by rewrite !lookup_empty.
  - apply max_over_ext. intros s0 _. by rewrite !untrained_extend.
Qed.

Lemma untrained_argmax t s :
  first_argmax (extend typed ∅ ∅ (bs t) (S t) s) = "a"%char.
Proof.
  rewrite (first_argmax_ext _
             (λ _, fadd (fadd (bs t "a"%char) (flog FLOOR)) (flog FLOOR))).
  - apply first_argmax_const.
  - intros s0 _. by rewrite untrained_extend, untrained_score.
Qed.

Lemma untrained_path t s : bp t s = replicate t "a"%char ++ [s].
Proof.
  revert s. induction t as [|t IH]; intros s; [done|].
  cbn [best_path]. by rewrite untrained_argmax, IH, replicate_S_end.
Qed.

Lemma untrained_decode :
  typed ≠ [] → spec_decode typed ∅ ∅ = replicate (length typed) "a"%char.
Proof.
  intros Hne. unfold spec_decode. cbv zeta.
  rewrite (first_argmax_ext _
             (λ _, fadd (bs (length typed - 1) "a"%char) (flog FLOOR))).
  - rewrite first_argmax_const, untrained_path, <- replicate_S_end.
    f_equal. destruct typed; [done|simpl; lia].
  - intros s _. rewrite untrained_score. unfold P_trans, cell.
    by rewrite lookup_empty.
Qed.
End untrained.

(** X8. With both tables empty every pair is floored and every comparison
    ties, so the decoder returns as many letters [a] as the non-empty word
    has characters. *)
Theorem viterbi_untrained {A : LogArith} {L : LogArithLaws A} (typed : str) :
  typed ≠ [] →
  viterbi typed ∅ ∅ = Ok (replicate (length typed) "a"%char).
Proof.
  intros Hne. rewrite viterbi_char by done.
  rewrite guard_run_positive by apply positive_table_empty.
  by rewrite untrained_decode.
Qed.

Lemma viterbi_untrained_witness :
  lit "dog" ≠ []
  ∧ viterbi (A := exact_arith) (lit "dog") ∅ ∅
    = Ok (replicate (length (lit "dog")) "a"%char).
Proof.
  assert (lit "dog" ≠ []) as Hne by discriminate.
  split; [exact Hne|].
  exact (viterbi_untrained (L := exact_arith_laws) (lit "dog") Hne).
Defined.

(** ** Driver *)

Lemma build_dictionary_snoc (pairs : list (str * str)) (pair : str * str) :
  build_dictionary (pairs ++ [pair])
  = if decide (pair.1 ∈ build_dictionary pairs) then build_dictionary pairs
    else build_dictionary pairs ++ [pair.1].
Proof. unfold build_dictionary. by rewrite foldl_snoc. Qed.

Lemma build_dictionary_elem_of (pairs : list (str * str)) (w : str) :
  w ∈ build_dictionary pairs ↔ w ∈ pairs.*1.
Proof.
  induction pairs as [|pair pairs IH] using rev_ind.
  - done.
  - rewrite build_dictionary_snoc, fmap_app, elem_of_app, <- IH.
    cbn [fmap list_fmap]. rewrite list_elem_of_singleton.
    case_decide as Hin.
    + split; [auto|]. by intros [?| ->].
    + by rewrite elem_of_app, list_elem_of_singleton.
Qed.

Lemma build_dictionary_NoDup (pairs : list (str * str)) :
  NoDup (build_dictionary pairs).
Proof.
  induction pairs as [|pair pairs IH] using rev_ind.
  - constructor.
  - rewrite build_dictionary_snoc. case_decide as Hin; [done|].
    apply NoDup_app. split; [done|]. split; [|apply NoDup_singleton].
    intros w Hw ->%list_elem_of_singleton. done.
Qed.

Lemma build_dictionary_prefix (pairs more : list (str * str)) :
  build_dictionary pairs `prefix_of` build_dictionary (pairs ++ more).
Proof.
  induction more as [|pair more IH] using rev_ind.
  - by rewrite app_nil_r.
  - rewrite app_assoc, build_dictionary_snoc.
    case_decide; [done|]. by apply prefix_app_r.
Qed.

(** X9. The vocabulary built by lines 194-197 has no duplicates, holds
    exactly the correct words of the training pairs, and only grows at its
    end when further pairs follow, so words stand in order of first
    appearance. *)
Theorem build_dictionary_first_appearance (pairs : list (str * str)) :
  NoDup (build_dictionary pairs)
  ∧ (∀ w, w ∈ build_dictionary pairs ↔ w ∈ pairs.*1)
  ∧ (∀ more,
       build_dictionary pairs `prefix_of` build_dictionary (pairs ++ more)).
Proof.
  split; [apply build_dictionary_NoDup|].
  split; [apply build_dictionary_elem_of|apply build_dictionary_prefix].
Qed.

(** Every token of [text.split()] is non-empty and no longer than the
    text. *)
Lemma split_from_tokens (text cur tok : str) :
  tok ∈ split_from cur text →
  tok ≠ [] ∧ (length tok ≤ length cur + length text)%nat.
Proof.
  revert cur. induction text as [|c text IH]; intros cur; simpl.
  - destruct cur as [|c0 cur]; [by intros ?%elem_of_nil|].
    intros ->%list_elem_of_singleton. split; [done|simpl; lia].
  - destruct (is_space c).
    + destruct cur as [|c0 cur].
      * intros Htok. destruct (IH _ Htok). simpl in *. split; [done|lia].
      * intros [->|Htok]%elem_of_cons; [split; [done|simpl; lia]|].
        destruct (IH _ Htok). simpl in *. split; [done|lia].
    + intros Htok. destruct (IH _ Htok) as [? Hlen].
      rewrite length_app in Hlen. simpl in *. split; [done|lia].
Qed.

Lemma py_split_tokens (text tok : str) :
  tok ∈ py_split text → tok ≠ [] ∧ (length tok ≤ length text)%nat.
Proof. intros Htok. by destruct (split_from_tokens _ _ _ Htok). Qed.

(** A loop that appends one result per element. *)
Lemma for_each_collect {X Y} (P : Y → Prop) (f : X → result Y)
    (l : list X) (acc : list Y) :
  (∀ x, x ∈ l → ∃ y, f x = Ok y ∧ P y) →
  ∃ ys, for_each l acc (λ acc x, y ← f x; Ok (acc ++ [y])) = Ok (acc ++ ys)
        ∧ length ys = length l
        ∧ ∀ y, y ∈ ys → P y.
Proof.
  revert acc. induction l as [|x l IH]; intros acc Hf.
  - exists []. rewrite app_nil_r. repeat split.
    by intros y ?%elem_of_nil.
  - destruct (Hf x) as (y & Hy & HPy); [by left|].
    destruct (IH (acc ++ [y])) as (ys & Hys & Hlen & HP).
    { intros; apply Hf. by right. }
    exists (y :: ys). cbn [for_each]. rewrite Hy. simpl.
    rewrite Hys, <- app_assoc. split; [done|]. split; [simpl; lia|].
    intros y' [->|?]%elem_of_cons; auto.
Qed.

Lemma spec_decode_length {A : LogArith} typed T E :
  typed ≠ [] → length (spec_decode typed T E) = length typed.
Proof.
  intros Hne. unfold spec_decode. rewrite best_path_length.
  destruct typed; [done|simpl; lia].
Qed.

Section driver_props.
Context {A : LogArith} {L : LogArithLaws A}.
Variable lower_char : ascii → ascii.
Variables T E : table.
Variable dictionary_words : list str.
Hypothesis HT : positive_table T.
Hypothesis HE : positive_table E.

(** Lines 208-209 on a non-empty word. *)
Lemma fix_word_Ok (word : str) :
  word ≠ [] →
  ∃ fixed,
    fix_word lower_char word T E dictionary_words = Ok fixed
    ∧ ((∃ w0, w0 ∈ dictionary_words
              ∧ Z.of_nat (length w0) < BEST_SCORE_INIT) →
       Z.of_nat (length word) < BEST_SCORE_INIT →
       fixed ∈ dictionary_words).
Proof.
  intros Hne. unfold fix_word.
  assert (py_lower lower_char word ≠ []) as Hne'
    by (destruct word; [done|discriminate]).
  rewrite viterbi_char by done. rewrite guard_run_positive by done. simpl.
  set (decoded := spec_decode (py_lower lower_char word) T E).
  assert (length decoded = length word) as Hlen.
  { unfold decoded. rewrite spec_decode_length by done.
    unfold py_lower. by rewrite length_fmap. }
  destruct (closest_known_word_cases decoded dictionary_words)
    as [[Hin Hout]|[_ (out & Hout & _ & Hnear)]].
  - exists decoded. auto.
  - exists out. split; [done|]. intros (w0 & Hw0 & Hshort) Hword.
    apply Hnear. apply (short_words_within_sentinel _ w0); [done..|].
    by rewrite Hlen.
Qed.

Lemma correct_text_Ok (text : str) :
  ∃ corrected,
    correct_text lower_char text T E dictionary_words = Ok corrected
    ∧ length corrected = length (py_split text)
    ∧ ((∃ w0, w0 ∈ dictionary_words
              ∧ Z.of_nat (length w0) < BEST_SCORE_INIT) →
       Z.of_nat (length text) < BEST_SCORE_INIT →
       ∀ w, w ∈ corrected → w ∈ dictionary_words).
Proof.
  unfold correct_text.
  destruct (for_each_collect
              (λ fixed,
                 (∃ w0, w0 ∈ dictionary_words
                        ∧ Z.of_nat (length w0) < BEST_SCORE_INIT) →
                 Z.of_nat (length text) < BEST_SCORE_INIT →
                 fixed ∈ dictionary_words)
              (λ word, fix_word lower_char word T E dictionary_words)
              (py_split text) [])
    as (ys & Hys & Hlen & HP).
  - intros word [Hne Hshort]%py_split_tokens.
    destruct (fix_word_Ok word Hne) as (fixed & Hfixed & Hin).
    exists fixed. split; [done|]. intros Hw0 Htext. apply Hin; [done|lia].
  - exists ys. split; [done|]. split; [done|]. intros Hw0 Htext w Hw.
    by apply HP.
Qed.
End driver_props.

(** X10. With tables of positive probabilities, lines 206-210 never raise
    on any line of text (no token of [text.split()] is the empty word that
    makes line 117 raise) and yield one word per token; when the text and
    some vocabulary word are shorter than [10**9] characters, every word
    yielded is a vocabulary word. *)
Theorem correct_text_total {A : LogArith} {L : LogArithLaws A}
    (lower_char : ascii → ascii) (transition_probs emission_probs : table)
    (dictionary_words : list str) (text : str) :
  positive_table transition_probs →
  positive_table emission_probs →
  ∃ corrected,
    correct_text lower_char text transition_probs emission_probs
      dictionary_words = Ok corrected
    ∧ length corrected = length (py_split text)
    ∧ ((∃ w0, w0 ∈ dictionary_words
              ∧ Z.of_nat (length w0) < BEST_SCORE_INIT) →
       Z.of_nat (length text) < BEST_SCORE_INIT →
       ∀ w, w ∈ corrected → w ∈ dictionary_words).
Proof. intros HT HE. by apply correct_text_Ok. Qed.

(** X11. Training on any pairs and then correcting any line of text never
    raises and yields one word per token; when the text and some correct
    word of the training pairs are shorter than [10**9] characters, every
    word yielded is a correct word of the training pairs. *)
Theorem train_and_correct_total {A : LogArith} {L : LogArithLaws A}
    (lower_char : ascii → ascii) (pairs : list (str * str)) (text : str) :
  ∃ corrected,
    train_and_correct lower_char pairs text = Ok corrected
    ∧ length corrected = length (py_split text)
    ∧ ((∃ pair, pair ∈ pairs
                ∧ Z.of_nat (length pair.1) < BEST_SCORE_INIT) →
       Z.of_nat (length text) < BEST_SCORE_INIT →
       ∀ w, w ∈ corrected → w ∈ pairs.*1).
Proof.
  destruct (trained_tables_positive pairs) as (E & T & HE & HT & HEp & HTp).
  unfold train_and_correct. rewrite HE, HT. simpl.
  destruct (correct_text_Ok lower_char T E (build_dictionary pairs) HTp HEp text)
    as (corrected & Hc & Hlen & Hin).
  exists corrected. split; [done|]. split; [done|].
  intros (pair & Hpair & Hshort) Htext w Hw.
  apply build_dictionary_elem_of, Hin; [|done..].
  exists pair.1. split; [|done].
  apply build_dictionary_elem_of, list_elem_of_fmap. eauto.
Qed.

Lemma correct_text_total_witness :
  positive_table sample_transitions
  ∧ positive_table sample_emissions
  ∧ ∃ corrected,
      correct_text (A := exact_arith) (λ c, c) (lit "ka  ka")
        sample_transitions sample_emissions [lit "cat"] = Ok corrected
      ∧ length corrected = length (py_split (lit "ka  ka"))
      ∧ ((∃ w0, w0 ∈ [lit "cat"]
                ∧ Z.of_nat (length w0) < BEST_SCORE_INIT) →
         Z.of_nat (length (lit "ka  ka")) < BEST_SCORE_INIT →
         ∀ w, w ∈ corrected → w ∈ [lit "cat"]).
Proof.
  split; [exact sample_transitions_positive|].
  split; [exact sample_emissions_positive|].
  exact (correct_text_total (L := exact_arith_laws) (λ c, c)
           sample_transitions sample_emissions [lit "cat"] (lit "ka  ka")
           sample_transitions_positive sample_emissions_positive).
Defined.

Example correct_text_sample :
  correct_text (A := exact_arith) (λ c, c) (lit "ka  ka")
    sample_transitions sample_emissions [lit "cat"]
  = Ok [lit "cat"; lit "cat"].
Proof. vm_compute. reflexivity. Qed.

Lemma train_and_correct_total_witness :
  ∃ corrected,
    train_and_correct (A := exact_arith) (λ c, c) training_sample
      (lit "kat dg") = Ok corrected
    ∧ length corrected = length (py_split (lit "kat dg"))
    ∧ ((∃ pair, pair ∈ training_sample
                ∧ Z.of_nat (length pair.1) < BEST_SCORE_INIT) →
       Z.of_nat (length (lit "kat dg")) < BEST_SCORE_INIT →
       ∀ w, w ∈ corrected → w ∈ training_sample.*1).
Proof.
  exact (train_and_correct_total (L := exact_arith_laws) (λ c, c)
           training_sample (lit "kat dg")).
Defined.

Example train_and_correct_sample :
  train_and_correct (A := exact_arith) (λ c, c) training_sample (lit "kat dg")
  = Ok [lit "cat"; lit "dog"].
Proof. vm_compute. reflexivity. Qed.

(** ** Snapping strings of ordinary length *)

Lemma list_min_le_elem d l x : x ∈ l → list_min d l ≤ x.
Proof.
  induction l as [|y l IH]; [by intros ?%elem_of_nil|].
  rewrite list_min_cons. intros [->|Hx]%elem_of_cons; [lia|].
  specialize (IH Hx). lia.
Qed.

(** X12. When the candidate and some vocabulary word are shorter than
    [10**9] characters, the snapper returns a vocabulary word that no
    vocabulary word beats in distance to the candidate. *)
Theorem closest_known_word_nearest (candidate : str) (vocabulary : list str) :
  (∃ w0, w0 ∈ vocabulary ∧ Z.of_nat (length w0) < BEST_SCORE_INIT) →
  Z.of_nat (length candidate) < BEST_SCORE_INIT →
  ∃ out,
    closest_known_word candidate vocabulary = Ok out
    ∧ out ∈ vocabulary
    ∧ ∀ w, w ∈ vocabulary →
        spec_distance out candidate ≤ spec_distance w candidate.
Proof.
  intros (w0 & Hw0 & Hshort) Hcand.
  destruct (decide (candidate ∈ vocabulary)) as [Hin|Hnot].
  - exists candidate. unfold closest_known_word. rewrite decide_True by done.
    split; [done|]. split; [done|]. intros w _.
    rewrite (proj2 (spec_distance_zero candidate candidate)) by done.
    apply spec_distance_nonneg.
  - eexists. split; [by apply closest_known_word_scan|].
    destruct (scan_result candidate vocabulary candidate BEST_SCORE_INIT)
      as [Hmin Hbest].
    pose proof (short_words_within_sentinel candidate w0 vocabulary
                  Hw0 Hshort Hcand) as Hnear.
    apply within_sentinel_min in Hnear. rewrite <- Hmin in Hnear.
    rewrite decide_True in Hbest by done.
    split; [by eapply find_elem_of|]. intros w Hw.
    apply find_some in Hbest as [_ Hd%bool_decide_eq_true].
    rewrite Hd, Hmin. apply list_min_le_elem, list_elem_of_fmap. eauto.
Qed.

Lemma closest_known_word_nearest_witness :
  (∃ w0, w0 ∈ [lit "cat"; lit "cot"; lit "cap"]
         ∧ Z.of_nat (length w0) < BEST_SCORE_INIT)
  ∧ Z.of_nat (length (lit "cet")) < BEST_SCORE_INIT
  ∧ ∃ out,
      closest_known_word (lit "cet") [lit "cat"; lit "cot"; lit "cap"] = Ok out
      ∧ out ∈ [lit "cat"; lit "cot"; lit "cap"]
      ∧ ∀ w, w ∈ [lit "cat"; lit "cot"; lit "cap"] →
          spec_distance out (lit "cet") ≤ spec_distance w (lit "cet").
Proof.
  assert (∃ w0, w0 ∈ [lit "cat"; lit "cot"; lit "cap"]
                ∧ Z.of_nat (length w0) < BEST_SCORE_INIT) as Hw0.
  { exists (lit "cat"). split; [by left|]. vm_compute. reflexivity. }
  assert (Z.of_nat (length (lit "cet")) < BEST_SCORE_INIT) as Hc
    by (vm_compute; reflexivity).
  split; [exact Hw0|]. split; [exact Hc|].
  exact (closest_known_word_nearest _ _ Hw0 Hc).
Defined.

(** ** Truncating alignment *)

Lemma zip_take_min {X Y} (l : list X) (k : list Y) :
  zip (take (Nat.min (length l) (length k)) l)
      (take (Nat.min (length l) (length k)) k)
  = zip l k.
Proof.
  revert k. induction l as [|x l IH]; intros [|y k]; simpl; try done.
  by rewrite IH.
Qed.

(** X13. Emission counting reads a pair only up to the length of its
    shorter string: cutting both strings of a pair to that length leaves the
    emission table unchanged, so a pair with an empty string contributes
    nothing. *)
Theorem compute_emissions_truncates (correct typed : str)
    (pairs : list (str * str)) :
  let m := Nat.min (length correct) (length typed) in
  compute_emissions ((correct, typed) :: pairs)
  = compute_emissions ((take m correct, take m typed) :: pairs)
  ∧ (m = 0%nat →
     compute_emissions ((correct, typed) :: pairs) = compute_emissions pairs).
Proof.
  intros m.
  destruct (count_emissions_counted ((correct, typed) :: pairs))
    as (d1 & Hd1 & Hc1).
  destruct (count_emissions_counted ((take m correct, take m typed) :: pairs))
    as (d2 & Hd2 & Hc2).
  destruct (count_emissions_counted pairs) as (d3 & Hd3 & Hc3).
  unfold compute_emissions. rewrite Hd1, Hd2, Hd3. simpl. split.
  - rewrite (counted_unique d1 d2 _ _ Hc1 Hc2); [done|]. intros x.
    unfold all_events. rewrite !fmap_cons. cbn [concat].
    unfold aligned at 1 3. cbn [fst snd]. unfold m.
    by rewrite zip_take_min.
  - intros Hm. rewrite (counted_unique d1 d3 _ _ Hc1 Hc3); [done|].
    intros x. unfold all_events. rewrite !fmap_cons. cbn [concat].
    unfold aligned at 1. cbn [fst snd].
    assert (zip correct typed = []) as ->; [|done].
    apply nil_length_inv. rewrite length_zip. exact Hm.
Qed.

(** ** The decoder and the zero-length word *)

(** C2, as the code has it. On a non-empty observed word the decoder
    returns a string whenever the tables hold positive probabilities, and
    for any tables a string it returns has exactly the length of its input
    and only characters among the 26 lowercase letters. *)
Theorem viterbi_same_length {A : LogArith} {L : LogArithLaws A}
    (typed : str) (transition_probs emission_probs : table) :
  typed ≠ [] →
  (positive_table transition_probs → positive_table emission_probs →
   ∃ out, viterbi typed transition_probs emission_probs = Ok out)
  ∧ (∀ out,
       viterbi typed transition_probs emission_probs = Ok out →
       length out = length typed ∧ ∀ c, c ∈ out → c ∈ letters).
Proof.
  intros Hne. rewrite viterbi_char by done. split.
  - intros HT HE. rewrite guard_run_positive by done. eauto.
  - intros out.
    destruct (guard_run typed transition_probs emission_probs); [|done].
    intros [= <-]. split; [by apply spec_decode_length|].
    intros c. unfold spec_decode. apply best_path_letters, first_argmax_letter.
Qed.

Lemma viterbi_same_length_witness :
  lit "ka" ≠ []
  ∧ (positive_table sample_transitions → positive_table sample_emissions →
     ∃ out,
       viterbi (A := exact_arith) (lit "ka") sample_transitions
         sample_emissions = Ok out)
  ∧ (∀ out,
       viterbi (A := exact_arith) (lit "ka") sample_transitions
         sample_emissions = Ok out →
       length out = length (lit "ka") ∧ ∀ c, c ∈ out → c ∈ letters).
Proof.
  assert (lit "ka" ≠ []) as Hne by discriminate.
  split; [exact Hne|].
  exact (viterbi_same_length (L := exact_arith_laws) (lit "ka")
           sample_transitions sample_emissions Hne).
Defined.

(** C2, at the zero-length word and empty tables: no string is returned, so
    none of the length of the input. *)
Lemma viterbi_empty_word_no_same_length_output :
  ¬ ∃ out, viterbi (A := exact_arith) [] ∅ ∅ = Ok out
           ∧ length out = length (@nil ascii).
Proof. exact (viterbi_empty_word_no_output ∅ ∅). Qed.

(** C3, at the zero-length word and empty tables: the decoder raises
    [IndexError], it does not return the empty string. *)
Lemma viterbi_empty_word_not_guarded :
  viterbi (A := exact_arith) [] ∅ ∅ = Raise IndexError
  ∧ viterbi (A := exact_arith) [] ∅ ∅ ≠ Ok [].
Proof.
  assert (viterbi (A := exact_arith) [] ∅ ∅ = Raise IndexError) as Hraise
    by (vm_compute; reflexivity).
  split; [exact Hraise|]. rewrite Hraise. discriminate.
Qed.
